(** * Dijkstra's shortest path: the Python module dijkstras_shortest_path.py

    A shallow embedding of the network classes ([Node], [Arc], [Network]) and
    of the three search functions ([spath_iteration], [spath_extract_path],
    [spath_algorithm]), followed by the properties of the search.

    Conventions of the embedding.
    - A Python reference to a [Node] object is the position of that object in
      [network.nodes]; two references are the same object when they are the
      same position.  Mutating [node.value] through any reference is an
      update of the node store at that position.
    - Arc weights and distances are Python integers ([Z]); [numpy.inf] is the
      extra distance [Inf].  Floating-point weights are outside the model.
    - The unvisited set is the list of its elements in iteration order,
      without repetition; [set.discard] keeps the order of what remains.
    - Every node owns its own [value] list: no two nodes share one.
    - A Python exception is a [Raise]; a [while] loop is run with an explicit
      iteration budget and yields [OutOfFuel] when the budget is too small. *)

From Stdlib Require Import ZArith Ascii String List Lia Bool.
From stdpp Require Import base tactics option list strings.

Local Open Scope string_scope.
Local Open Scope list_scope.
Local Open Scope nat_scope.

(** ** Outcomes of running Python code *)

Inductive exn : Type :=
| NameError          (* a free name bound neither in the module nor in builtins *)
| AttributeError     (* attribute access on None *)
| TypeError          (* subscript of None, call of something not callable *)
| ValueError         (* min of an empty iterable *)
| InvalidReference.  (* a position outside the node store: no Python object
                        graph contains one, [wf_network] excludes it *)

Inductive result (A : Type) : Type :=
| Ok (a : A)
| Raise (e : exn)
| OutOfFuel.

Arguments Ok {A} a.
Arguments Raise {A} e.
Arguments OutOfFuel {A}.

#[global] Instance result_ret : MRet result := fun A a => Ok a.
#[global] Instance result_bind : MBind result := fun A B f m =>
  match m with
  | Ok a => f a
  | Raise e => Raise e
  | OutOfFuel => OutOfFuel
  end.

(** ** Distances: Python numbers extended with numpy.inf *)

Inductive dist : Type :=
| Fin (z : Z)
| Inf.

(** [w + d] for an integer weight [w] *)
Definition dist_add (w : Z) (d : dist) : dist :=
  match d with
  | Fin x => Fin (w + x)
  | Inf => Inf
  end.

(** [a < b] *)
Definition dist_ltb (a b : dist) : bool :=
  match a, b with
  | Fin x, Fin y => (x <? y)%Z
  | Fin _, Inf => true
  | Inf, _ => false
  end.

(** ** The classes Node, Arc and Network *)

Record Arc : Type := mkArc {
  weight : Z;
  from_node : nat;   (* reference to the Node the arc leaves *)
  to_node : nat      (* reference to the Node the arc enters *)
}.

(** [value] is [None] until a search initialises it to the two-slot list
    [[tentative_distance, predecessor_name]]. *)
Record Node : Type := mkNode {
  name : string;
  value : option (dist * option string);
  arcs_in : list Arc;
  arcs_out : list Arc
}.

Record Network : Type := mkNetwork {
  nodes : list Node;
  arcs : list Arc
}.

Definition empty_network : Network := mkNetwork [] [].

Definition with_value (v : option (dist * option string)) (node : Node) : Node :=
  mkNode (name node) v (arcs_in node) (arcs_out node).

Definition push_arc_out (a : Arc) (node : Node) : Node :=
  mkNode (name node) (value node) (arcs_in node) (arcs_out node ++ [a]).

Definition push_arc_in (a : Arc) (node : Node) : Node :=
  mkNode (name node) (value node) (arcs_in node ++ [a]) (arcs_out node).

(** Network.get_node: the first node of [network.nodes] with that name *)
Fixpoint find_node (nm : string) (l : list Node) : option nat :=
  match l with
  | [] => None
  | node :: rest =>
      if String.eqb (name node) nm then Some 0 else S <$> find_node nm rest
  end.

Definition get_node (network : Network) (nm : string) : option nat :=
  find_node nm (nodes network).

(** Network.add_node *)
Definition add_node (network : Network) (nm : string)
    (v : option (dist * option string)) : Network :=
  let new_node := mkNode nm v [] [] in
  mkNetwork (nodes network ++ [new_node]) (arcs network).

(** Network.add_arc: [node_from] and [node_to] are Node references.  A
    reference outside [network.nodes] stands for a node of another network:
    the arc is still appended to [network.arcs], and no node of this network
    changes. *)
Definition add_arc (network : Network) (node_from node_to : nat) (w : Z) : Network :=
  let new_arc := mkArc w node_from node_to in
  let nodes1 := alter (push_arc_out new_arc) node_from (nodes network) in
  let nodes2 := alter (push_arc_in new_arc) node_to nodes1 in
  mkNetwork nodes2 (arcs network ++ [new_arc]).

(** ** Attribute access through references *)

Definition deref (network : Network) (r : nat) : result Node :=
  match nodes network !! r with
  | Some node => Ok node
  | None => Raise InvalidReference
  end.

(** [r.value] read as a list, for [r] the result of a lookup that may be None *)
Definition value_of (network : Network) (r : option nat)
    : result (dist * option string) :=
  match r with
  | None => Raise AttributeError
  | Some i =>
      node ← deref network i;
      match value node with
      | None => Raise TypeError
      | Some v => Ok v
      end
  end.

(** [r.value[0] = d; r.value[1] = p] *)
Definition set_value (network : Network) (r : nat) (v : dist * option string)
    : Network :=
  mkNetwork (alter (with_value (Some v)) r (nodes network)) (arcs network).

(** ** spath_iteration *)

(** The key function of [min]: [network.get_node(node).value[0]] *)
Definition distance_key (network : Network) (nm : string) : result (string * dist) :=
  v ← value_of network (get_node network nm);
  Ok (nm, fst v).

(** [min] keeps the first element whose key is smallest *)
Fixpoint min_scan (best : string * dist) (rest : list (string * dist)) : string :=
  match rest with
  | [] => fst best
  | x :: rest' =>
      if dist_ltb (snd x) (snd best) then min_scan x rest' else min_scan best rest'
  end.

Definition py_min (keyed : list (string * dist)) : result string :=
  match keyed with
  | [] => Raise ValueError
  | x :: rest => Ok (min_scan x rest)
  end.

Definition min_unvisited (network : Network) (unvisited : list string)
    : result string :=
  keyed ← mapM (distance_key network) unvisited;
  py_min keyed.

(** [unvisited.discard(solved_name)] *)
Definition discard (nm : string) (unvisited : list string) : list string :=
  filter (fun x => x ≠ nm) unvisited.

(** The body of [for arc in solved_node.arcs_out] *)
Definition relax_arc (solved_node_name : string) (network : Network) (arc : Arc)
    : result Network :=
  let temp_weight := weight arc in
  let temp_predecessor := from_node arc in
  let temp_node := to_node arc in
  vp ← value_of network (Some temp_predecessor);
  let dist_sum := dist_add temp_weight (fst vp) in
  vn ← value_of network (Some temp_node);
  if dist_ltb dist_sum (fst vn)
  then Ok (set_value network temp_node (dist_sum, Some solved_node_name))
  else Ok network.

Fixpoint relax_arcs (solved_node_name : string) (network : Network)
    (arcs_todo : list Arc) : result Network :=
  match arcs_todo with
  | [] => Ok network
  | arc :: rest =>
      network' ← relax_arc solved_node_name network arc;
      relax_arcs solved_node_name network' rest
  end.

(** The result is the returned name (or None) with the network and the
    unvisited set as the call leaves them.  The [while] of the source runs its
    body at most once: the body ends in [return]. *)
Definition spath_iteration (network : Network) (unvisited : list string)
    : result (option string * Network * list string) :=
  match unvisited with
  | [] => Ok (None, network, unvisited)
  | _ :: _ =>
      match min_unvisited network unvisited with
      | Raise ValueError => Ok (None, network, unvisited)
      | Raise e => Raise e
      | OutOfFuel => OutOfFuel
      | Ok solved_name =>
          let unvisited' := discard solved_name unvisited in
          match get_node network solved_name with
          | None => Raise AttributeError
          | Some solved_ref =>
              solved_node ← deref network solved_ref;
              network' ← relax_arcs (name solved_node) network (arcs_out solved_node);
              Ok (Some solved_name, network', unvisited')
          end
      end
  end.

(** ** spath_extract_path *)

(** The [while current_node.value[1] is not None] loop; [path] is the list
    built by [path.append]. *)
Fixpoint follow_predecessors (fuel : nat) (network : Network)
    (current_node : option nat) (path : list string) : result (list string) :=
  v ← value_of network current_node;
  match snd v with
  | None => Ok path
  | Some predecessor_name =>
      match fuel with
      | O => OutOfFuel
      | S fuel' =>
          let predecessor_node := get_node network predecessor_name in
          follow_predecessors fuel' network predecessor_node
            (path ++ [predecessor_name])
      end
  end.

Definition spath_extract_path (fuel : nat) (network : Network)
    (destination_name : string) : result (list string) :=
  let destination_node := get_node network destination_name in
  path ← follow_predecessors fuel network destination_node [];
  Ok (rev path ++ [destination_name]).

(** ** Module globals *)

(** What a call of a global name with [(network, source_name)] does.  The
    driver calls exactly one global, [spath_initialise]; a binding that can
    serve as it carries its behaviour.  Every other binding of the file is
    recorded by name only ([Bound]): the driver never calls one, and the model
    gives such a call the outcome TypeError without looking further. *)
Definition initialiser : Type :=
  Network → string → result (Network * list string).

Inductive binding : Type :=
| Bound                          (* an import, def or class of the file *)
| Initialiser (f : initialiser).

Definition globals : Type := list (string * binding).

Fixpoint resolve (g : globals) (x : string) : option binding :=
  match g with
  | [] => None
  | (y, b) :: g' => if String.eqb y x then Some b else resolve g' x
  end.

(** The names the source file binds at module level, in source order:
    [import numpy as np], three [def]s and three [class]es.  Python looks a
    free name up here and then among the builtins, none of which is called
    [spath_initialise]. *)
Definition source_globals : globals :=
  [ ("np", Bound);
    ("spath_iteration", Bound);
    ("spath_extract_path", Bound);
    ("spath_algorithm", Bound);
    ("Node", Bound);
    ("Arc", Bound);
    ("Network", Bound) ].

(** [f(network, source_name)] for a global name [f] *)
Definition call_global (g : globals) (f : string) (network : Network)
    (source_name : string) : result (Network * list string) :=
  match resolve g f with
  | None => Raise NameError
  | Some Bound => Raise TypeError
  | Some (Initialiser init) => init network source_name
  end.

(** ** spath_algorithm *)

(** 1 when a call of [spath_iteration] returned a name, 0 when it returned None *)
Definition solved_count (solved_node_name : option string) : nat :=
  match solved_node_name with
  | Some _ => 1
  | None => 0
  end.

(** The [while solved_node_name != destination_name] loop.  [steps] counts the
    calls of [spath_iteration] that solved a node. *)
Fixpoint search_loop (fuel : nat) (network : Network) (unvisited : list string)
    (solved_node_name : option string) (destination_name : string) (steps : nat)
    : result (option string * Network * list string * nat) :=
  match solved_node_name with
  | None => Ok (None, network, unvisited, steps)
  | Some nm =>
      if String.eqb nm destination_name
      then Ok (solved_node_name, network, unvisited, steps)
      else
        match fuel with
        | O => OutOfFuel
        | S fuel' =>
            '(solved', network', unvisited') ← spath_iteration network unvisited;
            search_loop fuel' network' unvisited' solved' destination_name
              (solved_count solved' + steps)
        end
  end.

(** Source lines 111 to 121: initialise, first iteration, loop *)
Definition spath_search (g : globals) (fuel : nat) (network : Network)
    (source_name destination_name : string)
    : result (option string * Network * list string * nat) :=
  '(network0, unvisited_set) ← call_global g "spath_initialise" network source_name;
  '(solved_node_name, network1, unvisited1) ← spath_iteration network0 unvisited_set;
  search_loop fuel network1 unvisited1 solved_node_name destination_name
    (solved_count solved_node_name).

(** Source lines 123 to 132: the returned pair [(distance, path)] *)
Definition spath_report (fuel : nat) (network : Network)
    (solved_node_name : option string) (destination_name : string)
    : result (option dist * option (list string)) :=
  match solved_node_name with
  | None => Ok (None, None)
  | Some _ =>
      let destination_node := get_node network destination_name in
      v ← value_of network destination_node;
      let distance := fst v in
      path ← spath_extract_path fuel network destination_name;
      Ok (Some distance, Some path)
  end.

Definition spath_algorithm (g : globals) (fuel : nat) (network : Network)
    (source_name destination_name : string)
    : result (option dist * option (list string)) :=
  '(solved_node_name, network', _, _) ←
    spath_search g fuel network source_name destination_name;
  spath_report fuel network' solved_node_name destination_name.

(** ** The missing initialiser *)

(** Modelled from the spec: the first half of [spath_initialise], which the
    source calls and does not define.  Section 4.4: reset every node's
    tentative distance to +infinity and its predecessor to none. *)
Definition reset_search_state (network : Network) : Network :=
  mkNetwork (with_value (Some (Inf, None)) <$> nodes network) (arcs network).

(** Modelled from the spec: [spath_initialise], which the source calls and
    does not define.  Section 4.4: after the reset, set the source node's
    tentative distance to 0 and build the unvisited set of all node names; a
    source name that [get_node] does not find is an attribute access on None.
    The order in which the new set iterates is not fixed by Python: it is the
    parameter [set_order]. *)
Definition spath_initialise (set_order : list string → list string)
    : initialiser := fun network source_name =>
  let reset := reset_search_state network in
  match get_node reset source_name with
  | None => Raise AttributeError
  | Some source_node =>
      Ok (set_value reset source_node (Fin 0, None),
          set_order (remove_dups (name <$> nodes network)))
  end.

(** A set iterates over exactly the elements it holds, each once *)
Definition set_order_ok (set_order : list string → list string) : Prop :=
  ∀ l, set_order l ≡ₚ l.

(** The order of insertion, one possible iteration order *)
Definition insertion_order (l : list string) : list string := l.

(** The module completed with that initialiser *)
Definition completed_globals (set_order : list string → list string) : globals :=
  ("spath_initialise", Initialiser (spath_initialise set_order)) :: source_globals.

(** ** Example networks *)

Definition add_nodes (names : list string) (network : Network) : Network :=
  fold_left (fun net nm => add_node net nm None) names network.

(** Nodes A, B, C, D with arcs A->B (1), A->C (4), B->C (2), B->D (5), C->D (1) *)
Definition abcd : Network :=
  let n0 := add_nodes ["A"; "B"; "C"; "D"] empty_network in
  let n1 := add_arc n0 0 1 1 in
  let n2 := add_arc n1 0 2 4 in
  let n3 := add_arc n2 1 2 2 in
  let n4 := add_arc n3 1 3 5 in
  add_arc n4 2 3 1.

(** Nodes A and B, no arc *)
Definition two_islands : Network := add_nodes ["A"; "B"] empty_network.

(** One node s with an arc from s to s of weight -1 *)
Definition negative_loop : Network :=
  add_arc (add_nodes ["s"] empty_network) 0 0 (-1).

(** ** Reading the search state *)

Definition state_of (network : Network) (i : nat) : option (dist * option string) :=
  nodes network !! i ≫= value.

(** [node.value[0]] of the node at position [i] *)
Definition tentative (network : Network) (i : nat) : dist :=
  match state_of network i with
  | Some v => fst v
  | None => Inf
  end.

(** [node.value[1]] of the node at position [i] *)
Definition predecessor (network : Network) (i : nat) : option string :=
  match state_of network i with
  | Some v => snd v
  | None => None
  end.

Definition dist_lt (a b : dist) : Prop := dist_ltb a b = true.
Definition dist_le (a b : dist) : Prop := dist_ltb b a = false.

(** The network without its search state *)
Definition skeleton (network : Network) : Network :=
  mkNetwork (with_value None <$> nodes network) (arcs network).

(** ** Well-formed networks *)

Definition arc_eqb (a b : Arc) : bool :=
  Z.eqb (weight a) (weight b)
  && Nat.eqb (from_node a) (from_node b)
  && Nat.eqb (to_node a) (to_node b).

(** Every arc listed in [node.arcs_out] leaves that node, enters a node of the
    network, and is an arc of [network.arcs] *)
Fixpoint arcs_out_ok (network : Network) (i : nat) (l : list Node) : bool :=
  match l with
  | [] => true
  | node :: rest =>
      forallb (fun a =>
          Nat.eqb (from_node a) i
          && Nat.ltb (to_node a) (length (nodes network))
          && existsb (arc_eqb a) (arcs network))
        (arcs_out node)
      && arcs_out_ok network (S i) rest
  end.

(** Every arc of [network.arcs] is listed in the [arcs_out] of its [from_node] *)
Definition arc_registered (network : Network) (a : Arc) : bool :=
  match nodes network !! from_node a with
  | Some node => existsb (arc_eqb a) (arcs_out node)
  | None => false
  end.

Fixpoint names_distinct (l : list string) : bool :=
  match l with
  | [] => true
  | x :: rest => negb (existsb (String.eqb x) rest) && names_distinct rest
  end.

(** What [add_node] with fresh names and [add_arc] on nodes of the network
    build: unique names, and [arcs_out] lists that agree with [network.arcs] *)
Definition wf_networkb (network : Network) : bool :=
  arcs_out_ok network 0 (nodes network)
  && forallb (arc_registered network) (arcs network)
  && names_distinct (name <$> nodes network).

Definition wf_network (network : Network) : Prop := wf_networkb network = true.

Definition nonneg_weights (network : Network) : Prop :=
  forallb (fun a => (0 <=? weight a)%Z) (arcs network) = true.

(** ** Directed paths and the shortest distance *)

(** [path network s v W]: a directed path from node [s] to node [v] along arcs
    of [network.arcs], of total weight [W] *)
Inductive path (network : Network) (s : nat) : nat → Z → Prop :=
| path_here : s < length (nodes network) → path network s s 0
| path_step v a W :
    path network s v W →
    a ∈ arcs network →
    from_node a = v →
    path network s (to_node a) (W + weight a).


(** ** The relaxation rule, in the words of the specification *)

(** For each outgoing arc [a] of the solved node, in order: the candidate is
    the solved node's tentative distance plus the weight of [a]; the neighbour
    takes the candidate and the solved node's name when the candidate is
    strictly smaller than its tentative distance, and is left alone otherwise. *)
Inductive relaxed (solved : nat) (solved_name : string)
    : list Arc → Network → Network → Prop :=
| relaxed_done network : relaxed solved solved_name [] network network
| relaxed_update a rest network network' vs vn :
    state_of network solved = Some vs →
    state_of network (to_node a) = Some vn →
    dist_lt (dist_add (weight a) (fst vs)) (fst vn) →
    relaxed solved solved_name rest
      (set_value network (to_node a) (dist_add (weight a) (fst vs), Some solved_name))
      network' →
    relaxed solved solved_name (a :: rest) network network'
| relaxed_keep a rest network network' vs vn :
    state_of network solved = Some vs →
    state_of network (to_node a) = Some vn →
    dist_le (fst vn) (dist_add (weight a) (fst vs)) →
    relaxed solved solved_name rest network network' →
    relaxed solved solved_name (a :: rest) network network'.

(** ** The states of a search *)

(** The network and unvisited set after [spath_initialise] and any number of
    calls of [spath_iteration] that solved a node *)
Inductive search_state (set_order : list string → list string)
    (network0 : Network) (source_name : string)
    : Network → list string → Prop :=
| search_start network unvisited :
    spath_initialise set_order network0 source_name = Ok (network, unvisited) →
    search_state set_order network0 source_name network unvisited
| search_step network unvisited solved_name network' unvisited' :
    search_state set_order network0 source_name network unvisited →
    spath_iteration network unvisited = Ok (Some solved_name, network', unvisited') →
    search_state set_order network0 source_name network' unvisited'.

(** The predecessor recorded on each solved node is a node solved before it;
    [order] lists the solved nodes, the latest first *)
Fixpoint chain_ok (network : Network) (order : list nat) : Prop :=
  match order with
  | [] => True
  | i :: earlier =>
      (predecessor network i = None
       ∨ ∃ pn j, predecessor network i = Some pn
                 ∧ get_node network pn = Some j ∧ j ∈ earlier)
      ∧ chain_ok network earlier
  end.

(** The loop invariant of the search from the node [s] of [network0] *)
Record search_inv (network0 : Network) (s : nat)
    (network : Network) (unvisited : list string) (order : list nat) : Prop := {
  inv_shape : skeleton network = skeleton network0;
  inv_init : ∀ i, i < length (nodes network0) → is_Some (state_of network i);
  inv_nodup : NoDup unvisited;
  inv_partition : ∀ i node,
    nodes network0 !! i = Some node → (name node ∈ unvisited ↔ i ∉ order);
  inv_names : ∀ nm, nm ∈ unvisited → is_Some (get_node network0 nm);
  inv_count : length order + length unvisited = length (nodes network0);
  inv_range : ∀ i, i ∈ order → i < length (nodes network0);
  inv_source : dist_le (tentative network s) (Fin 0);
  inv_reach : ∀ i z, tentative network i = Fin z → path network0 s i z;
  inv_relaxed : ∀ i node a,
    i ∈ order → nodes network0 !! i = Some node → a ∈ arcs_out node →
    dist_le (tentative network (to_node a))
            (dist_add (weight a) (tentative network i));
  inv_frontier : ∀ i j,
    i ∈ order → j < length (nodes network0) → j ∉ order →
    dist_le (tentative network i) (tentative network j);
  inv_final : ∀ i W,
    i ∈ order → path network0 s i W → dist_le (tentative network i) (Fin W);
  inv_pred : ∀ i pn,
    predecessor network i = Some pn →
    ∃ j, get_node network0 pn = Some j ∧ j ∈ order;
  inv_chain : chain_ok network order;
  inv_unreached : ∀ i, tentative network i = Inf → predecessor network i = None
}.

(** Every node carries a search state (no [value] is None) *)
Definition initialised (network : Network) : Prop :=
  ∀ i, i < length (nodes network) → is_Some (state_of network i).

(** The key [min] compares for the name [nm]; [Inf] where the source would raise *)
Definition key_of (network : Network) (nm : string) : dist :=
  match value_of network (get_node network nm) with
  | Ok v => fst v
  | _ => Inf
  end.

(** No arc from the node at position [i] back to itself has a negative weight *)
Definition no_negative_self_loop (node : Node) (i : nat) : bool :=
  forallb (fun a => negb (Nat.eqb (to_node a) i) || (0 <=? weight a)%Z)
    (arcs_out node).

(** The network and unvisited set a search from [source_name] starts with,
    the set iterating in insertion order *)
Definition started (network : Network) (source_name : string)
    : Network * list string :=
  match spath_initialise insertion_order network source_name with
  | Ok st => st
  | _ => (network, [])
  end.

(** The state in which no call of [spath_iteration] raises: the nodes and arcs
    of [network0], every node with a search state, every unvisited name the
    name of a node *)
Definition search_safe (network0 network : Network) (unvisited : list string)
    : Prop :=
  skeleton network = skeleton network0
  ∧ initialised network
  ∧ ∀ nm, nm ∈ unvisited → is_Some (get_node network0 nm).

(** [negative_loop] after the first call of a search from s: the arc of weight
    -1 has lowered the distance of s to -1 and made s its own predecessor *)
Definition negative_loop_solved : Network :=
  set_value (fst (started negative_loop "s")) 0 (Fin (-1), Some "s").

(** ** Networks built through the interface *)

(** [Network()] followed by any calls of [add_node] and of [add_arc] on nodes
    of the network *)
Inductive built : Network → Prop :=
| built_empty : built empty_network
| built_add_node network nm v :
    built network → built (add_node network nm v)
| built_add_arc network node_from node_to w :
    built network →
    node_from < length (nodes network) →
    node_to < length (nodes network) →
    built (add_arc network node_from node_to w).

(** Every arc of [network.arcs] joins nodes of the network, and each node's
    [arcs_out] and [arcs_in] are the arcs of [network.arcs] that leave and
    enter it, in the order of [network.arcs] *)
Definition arcs_indexed (network : Network) : Prop :=
  (∀ a, a ∈ arcs network →
     from_node a < length (nodes network) ∧ to_node a < length (nodes network))
  ∧ ∀ i node, nodes network !! i = Some node →
      arcs_out node = filter (λ a, from_node a = i) (arcs network)
      ∧ arcs_in node = filter (λ a, to_node a = i) (arcs network).

(** ** Routes *)



(** ** Network.read_network *)

(** [s.split(sep)] for a separator of one character: the pieces between the
    occurrences of [sep], empty pieces included *)
Fixpoint split (sep : ascii) (s : string) : list string :=
  match s with
  | EmptyString => [EmptyString]
  | String c rest =>
      if Ascii.eqb c sep then EmptyString :: split sep rest
      else
        match split sep rest with
        | [] => [String c EmptyString]
        | piece :: pieces => String c piece :: pieces
        end
  end.

(** [read_network] raises what the search never does, an IndexError, besides
    exceptions of the kinds above *)
Inductive read_exn : Type :=
| IndexError             (* subscript past the end of a list *)
| Other (e : exn).

(** How a call of [read_network] ends, with the network as the call leaves
    it: the nodes and arcs added before an exception stay in the network *)
Inductive read_result : Type :=
| Read (network : Network)
| Stopped (e : read_exn) (network : Network).

Definition network_of (r : read_result) : Network :=
  match r with
  | Read network => network
  | Stopped _ network => network
  end.

(** [if self.get_node(nm) is None: self.add_node(nm)] *)
Definition ensure_node (network : Network) (nm : string) : Network :=
  match get_node network nm with
  | None => add_node network nm None
  | Some _ => network
  end.

Section ReadNetwork.
(** The builtins the reader calls: [str.strip], and [float] applied to the
    text of a weight, with None where it raises ValueError.  The number a
    weight text denotes is taken in [Z], as all weights are here. *)
Variable strip : string → string.
Variable float : string → option Z.

(** The [for item in items] loop; [source_node] is the reference that
    [get_node(items[0])] returned *)
Fixpoint read_items (network : Network) (source_node : nat) (items : list string)
    : read_result :=
  match items with
  | [] => Read network
  | item :: rest =>
      match nodes network !! source_node with
      | None => Stopped (Other InvalidReference) network
      | Some node =>
          if String.eqb item (name node)
          then read_items network source_node rest
          else
            match split ";" item with
            | destination_name :: arc_weight :: _ =>
                let network1 := ensure_node network destination_name in
                match float arc_weight with
                | None => Stopped (Other ValueError) network1
                | Some w =>
                    match get_node network1 destination_name with
                    | None => Stopped (Other AttributeError) network1
                    | Some destination_node =>
                        read_items
                          (add_arc network1 source_node destination_node w)
                          source_node rest
                    end
                end
            | _ => Stopped IndexError network
            end
      end
  end.

(** The body of [while line != ''] for one line *)
Definition read_line (network : Network) (line : string) : read_result :=
  let items := split "," (strip line) in
  match items with
  | [] => Stopped IndexError network
  | first :: _ =>
      let network1 := ensure_node network first in
      match get_node network1 first with
      | None => Stopped (Other AttributeError) network1
      | Some source_node => read_items network1 source_node items
      end
  end.

(** [lines] are the lines of the file as [readline] returns them; the end of
    the list, like an empty string, is the end of the file *)
Fixpoint read_network (network : Network) (lines : list string) : read_result :=
  match lines with
  | [] => Read network
  | line :: rest =>
      if String.eqb line "" then Read network
      else
        match read_line network line with
        | Read network' => read_network network' rest
        | Stopped e network' => Stopped e network'
        end
  end.

(** What a file asks for: for each line, each item that differs from the
    first item of the line, paired with that first item *)
Definition line_requests (line : string) : list (string * string) :=
  match split "," (strip line) with
  | [] => []
  | first :: _ =>
      (λ item, (first, item))
        <$> filter (λ item, item ≠ first) (split "," (strip line))
  end.

Fixpoint file_requests (lines : list string) : list (string * string) :=
  match lines with
  | [] => []
  | line :: rest =>
      if String.eqb line "" then []
      else line_requests line ++ file_requests rest
  end.

(** The first items of the lines *)
Fixpoint file_sources (lines : list string) : list string :=
  match lines with
  | [] => []
  | line :: rest =>
      if String.eqb line "" then []
      else
        match split "," (strip line) with
        | [] => file_sources rest
        | first :: _ => first :: file_sources rest
        end
  end.

(** An item the reader accepts: a destination, a [;] and a weight text that
    [float] accepts *)
Definition request_ok (req : string * string) : Prop :=
  ∃ destination_name arc_weight more w,
    split ";" (snd req) = destination_name :: arc_weight :: more
    ∧ float arc_weight = Some w.

(** The arc an accepted item stands for in [network] *)
Definition request_arc (network : Network) (req : string * string) (a : Arc)
    : Prop :=
  ∃ destination_name arc_weight more,
    split ";" (snd req) = destination_name :: arc_weight :: more
    ∧ float arc_weight = Some (weight a)
    ∧ get_node network (fst req) = Some (from_node a)
    ∧ get_node network destination_name = Some (to_node a).

(** The destination an item names *)
Definition request_destination (req : string * string) : string :=
  match split ";" (snd req) with
  | destination_name :: _ => destination_name
  | [] => ""
  end.

(** An item on which the reader raises [e]: no [;] in it for an IndexError,
    a weight text that [float] refuses for a ValueError *)
Definition request_fails (e : read_exn) (req : string * string) : Prop :=
  match e with
  | IndexError => length (split ";" (snd req)) < 2
  | Other ValueError =>
      ∃ destination_name arc_weight more,
        split ";" (snd req) = destination_name :: arc_weight :: more
        ∧ float arc_weight = None
  | Other _ => False
  end.
End ReadNetwork.

(** [network'] holds what [network] holds: each name found in [network] is
    found at the same node, and [network.arcs] has only grown at its end *)
Definition extends (network network' : Network) : Prop :=
  (∀ nm i, get_node network nm = Some i → get_node network' nm = Some i)
  ∧ ∃ new, arcs network' = arcs network ++ new.

(** [r] is an outcome of reading, from [network] on, lines whose first
    items are [sources] and whose other items are [reqs]: the network has
    only grown, by nodes that the lines name and by one arc for each item up
    to the one that raised, in the order of the items *)
Definition reads (float : string → option Z) (network : Network)
    (sources : list string) (reqs : list (string * string)) (r : read_result)
    : Prop :=
  extends network (network_of r)
  ∧ (wf_network network → wf_network (network_of r))
  ∧ (built network → built (network_of r))
  ∧ (∀ x, is_Some (get_node (network_of r) x) →
          is_Some (get_node network x) ∨ x ∈ sources
          ∨ x ∈ request_destination <$> reqs)
  ∧ ∃ new,
      arcs (network_of r) = arcs network ++ new
      ∧ Forall2 (request_arc float (network_of r)) (take (length new) reqs) new
      ∧ match r with
        | Read network' =>
            length new = length reqs
            ∧ ∀ x, x ∈ sources → is_Some (get_node network' x)
        | Stopped e _ =>
            ∃ req, reqs !! length new = Some req ∧ request_fails float e req
        end.

(** Examples of the two builtins, for files of ASCII text with weights
    written in decimal digits *)
Definition is_space (c : ascii) : bool :=
  existsb (Ascii.eqb c) [" "; "009"; "010"; "011"; "012"; "013"]%char.

Fixpoint lstrip (s : string) : string :=
  match s with
  | String c rest => if is_space c then lstrip rest else s
  | EmptyString => EmptyString
  end.

Definition example_strip (s : string) : string :=
  String.rev (lstrip (String.rev (lstrip s))).

Definition digit_value (c : ascii) : option Z :=
  let n := Z.of_nat (nat_of_ascii c) in
  if ((48 <=? n) && (n <=? 57))%Z then Some (n - 48)%Z else None.

Fixpoint digits_value (acc : Z) (s : string) : option Z :=
  match s with
  | EmptyString => Some acc
  | String c rest =>
      match digit_value c with
      | Some d => digits_value (10 * acc + d) rest
      | None => None
      end
  end.

Definition example_float (s : string) : option Z :=
  match s with
  | EmptyString => None
  | _ => digits_value 0 s
  end.

(** The lines of a file that describes the network [abcd] *)
Definition abcd_lines : list string :=
  [ String.append "A,B;1,C;4" (String "010" EmptyString);
    String.append "B,C;2,D;5" (String "010" EmptyString);
    String.append "C,D;1" (String "010" EmptyString) ].

(** * Properties *)

(** ** The order on distances *)

Ltac dist_cases :=
  unfold dist_le, dist_lt in *;
  repeat match goal with
         | d : dist |- _ => destruct d
         end;
  simpl in *;
  rewrite ?Z.ltb_lt, ?Z.ltb_ge in *;
  try congruence; try lia.

Lemma dist_le_refl a : dist_le a a.
Proof. dist_cases. Qed.

Lemma dist_le_trans a b c : dist_le a b → dist_le b c → dist_le a c.
Proof. dist_cases. Qed.

Lemma dist_lt_le a b : dist_lt a b → dist_le a b.
Proof. dist_cases. Qed.

Lemma dist_lt_le_trans a b c : dist_lt a b → dist_le b c → dist_lt a c.
Proof. dist_cases. Qed.

Lemma dist_lt_not_le a b : dist_lt a b → dist_le b a → False.
Proof. dist_cases. Qed.

Lemma dist_lt_Fin a b : dist_lt a b → ∃ z, a = Fin z.
Proof. destruct a; [eauto | dist_cases]. Qed.

Lemma dist_add_mono w a b : dist_le a b → dist_le (dist_add w a) (dist_add w b).
Proof. dist_cases. Qed.

Lemma dist_add_nonneg w a : (0 ≤ w)%Z → dist_le a (dist_add w a).
Proof. dist_cases. Qed.

(** ** The result monad *)

Lemma bind_Ok {A B} (m : result A) (f : A → result B) b :
  m ≫= f = Ok b → ∃ a, m = Ok a ∧ f a = Ok b.
Proof. destruct m; simpl; intros; [eauto | discriminate..]. Qed.

Lemma mapM_Ok {A B} (f : A → result B) l k :
  mapM f l = Ok k → Forall2 (λ x y, f x = Ok y) l k.
Proof.
  revert k. induction l as [|x l IH]; simpl; intros k Hk.
  - injection Hk as <-. constructor.
  - apply bind_Ok in Hk as (y & Hy & Hk).
    apply bind_Ok in Hk as (k' & Hk' & Hk).
    injection Hk as <-. constructor; auto.
Qed.

Lemma mapM_Ok_fmap {A B} (f : A → result B) (g : A → B) l :
  (∀ x, x ∈ l → f x = Ok (g x)) → mapM f l = Ok (g <$> l).
Proof.
  induction l as [|x l IH]; simpl; intros Hl; [done|].
  rewrite (Hl x) by left. simpl.
  rewrite IH by (intros; apply Hl; by right). done.
Qed.

(** ** Looking nodes up *)

Lemma find_node_Some nm l i :
  find_node nm l = Some i → ∃ node, l !! i = Some node ∧ name node = nm.
Proof.
  revert i. induction l as [|node l IH]; simpl; intros i Hi; [done|].
  destruct (String.eqb_spec (name node) nm) as [Heq|Hne].
  - injection Hi as <-. eauto.
  - destruct (find_node nm l) as [j|] eqn:Hj; simpl in Hi; [|done].
    injection Hi as <-. simpl. auto.
Qed.

Lemma find_node_None nm l :
  find_node nm l = None → nm ∉ name <$> l.
Proof.
  induction l as [|node l IH]; simpl; intros Hn.
  - apply not_elem_of_nil.
  - destruct (String.eqb_spec (name node) nm) as [Heq|Hne]; [done|].
    destruct (find_node nm l); [done|].
    apply not_elem_of_cons. split; [congruence | auto].
Qed.

Lemma find_node_elem nm l :
  nm ∈ name <$> l → is_Some (find_node nm l).
Proof.
  intros Hin. destruct (find_node nm l) eqn:H; [eauto|].
  by apply find_node_None in H.
Qed.

Lemma find_node_unique l i node :
  NoDup (name <$> l) → l !! i = Some node → find_node (name node) l = Some i.
Proof.
  revert i. induction l as [|x l IH]; intros i Hnd Hi; [done|].
  rewrite fmap_cons in Hnd. apply NoDup_cons in Hnd as [Hx Hnd].
  destruct i as [|i]; simpl in *.
  - injection Hi as ->. by rewrite String.eqb_refl.
  - destruct (String.eqb_spec (name x) (name node)) as [Heq|Hne].
    + exfalso. apply Hx. rewrite Heq.
      apply list_elem_of_fmap. exists node. split; [done|].
      by eapply list_elem_of_lookup_2.
    + by rewrite (IH i).
Qed.

Lemma find_node_skeleton nm l :
  find_node nm (with_value None <$> l) = find_node nm l.
Proof.
  induction l as [|x l IH]; [done|].
  rewrite fmap_cons. simpl. by rewrite IH.
Qed.

Lemma get_node_skeleton network nm :
  get_node (skeleton network) nm = get_node network nm.
Proof. apply find_node_skeleton. Qed.

Lemma get_node_same network network' nm :
  skeleton network = skeleton network' →
  get_node network nm = get_node network' nm.
Proof.
  intros H. by rewrite <- (get_node_skeleton network), H, get_node_skeleton.
Qed.

Lemma get_node_Some network nm i :
  get_node network nm = Some i →
  ∃ node, nodes network !! i = Some node ∧ name node = nm.
Proof. apply find_node_Some. Qed.

Lemma skeleton_length network network' :
  skeleton network = skeleton network' →
  length (nodes network) = length (nodes network').
Proof.
  intros H. apply (f_equal (λ n, length (nodes n))) in H.
  simpl in H. by rewrite !length_fmap in H.
Qed.

Lemma skeleton_lookup network network' i node :
  skeleton network = skeleton network' →
  nodes network !! i = Some node →
  ∃ node', nodes network' !! i = Some node'
           ∧ name node' = name node ∧ arcs_out node' = arcs_out node.
Proof.
  intros H Hi. apply (f_equal (λ n, nodes n !! i)) in H. simpl in H.
  rewrite !list_lookup_fmap, Hi in H. simpl in H.
  destruct (nodes network' !! i) as [node'|]; [|done].
  exists node'. split; [done|]. simpl in H.
  injection H as Hn _ Ho. auto.
Qed.

Lemma skeleton_set_value network r v :
  skeleton (set_value network r v) = skeleton network.
Proof.
  unfold skeleton, set_value. simpl. f_equal.
  apply list_eq. intros i. rewrite !list_lookup_fmap.
  destruct (decide (i = r)) as [->|Hne].
  - rewrite list_lookup_alter_eq. by destruct (nodes network !! r).
  - by rewrite list_lookup_alter_ne.
Qed.

(** ** Reading and writing the search state *)

Lemma value_of_state network i v :
  value_of network (Some i) = Ok v ↔ state_of network i = Some v.
Proof.
  unfold value_of, state_of, deref.
  destruct (nodes network !! i) as [node|]; simpl; [|done].
  destruct (value node); split; congruence.
Qed.

Lemma state_of_lt network i v :
  state_of network i = Some v → i < length (nodes network).
Proof.
  unfold state_of. intros H. apply lookup_lt_is_Some.
  destruct (nodes network !! i); [eauto | done].
Qed.

Lemma state_set_value_eq network i v :
  i < length (nodes network) → state_of (set_value network i v) i = Some v.
Proof.
  intros Hi. unfold state_of, set_value. simpl.
  rewrite list_lookup_alter_eq.
  apply lookup_lt_is_Some in Hi as [node ->]. done.
Qed.

Lemma state_set_value_ne network i j v :
  i ≠ j → state_of (set_value network i v) j = state_of network j.
Proof.
  intros Hne. unfold state_of, set_value. simpl.
  by rewrite list_lookup_alter_ne.
Qed.

Lemma tentative_state network i v :
  state_of network i = Some v → tentative network i = fst v.
Proof. unfold tentative. by intros ->. Qed.

Lemma predecessor_state network i v :
  state_of network i = Some v → predecessor network i = snd v.
Proof. unfold predecessor. by intros ->. Qed.

(** ** Well-formed networks *)

Lemma arc_eqb_eq a b : arc_eqb a b = true ↔ a = b.
Proof.
  unfold arc_eqb. rewrite !andb_true_iff, Z.eqb_eq, !Nat.eqb_eq.
  destruct a, b; simpl. split; [intros [[-> ->] ->]; done | by intros [= -> -> ->]].
Qed.

Lemma existsb_arc a l : existsb (arc_eqb a) l = true ↔ a ∈ l.
Proof.
  rewrite existsb_exists. split.
  - intros (b & Hb & Heq). apply arc_eqb_eq in Heq as ->. by apply list_elem_of_In.
  - intros Ha. exists a. split; [by apply list_elem_of_In | by apply arc_eqb_eq].
Qed.

Lemma names_distinct_NoDup l : names_distinct l = true → NoDup l.
Proof.
  induction l as [|x l IH]; simpl; [constructor|].
  rewrite andb_true_iff, negb_true_iff. intros [Hx Hl].
  constructor; [|auto].
  intros Hin. apply not_true_iff_false in Hx. apply Hx.
  apply existsb_exists. exists x. split; [by apply list_elem_of_In|].
  apply String.eqb_refl.
Qed.

Lemma arcs_out_ok_lookup network i l k node a :
  arcs_out_ok network i l = true →
  l !! k = Some node → a ∈ arcs_out node →
  from_node a = i + k
  ∧ to_node a < length (nodes network)
  ∧ a ∈ arcs network.
Proof.
  revert i k. induction l as [|x l IH]; intros i k Hok Hk Ha; [done|].
  simpl in Hok. apply andb_true_iff in Hok as [Hx Hl].
  destruct k as [|k]; simpl in Hk.
  - injection Hk as ->. rewrite forallb_forall in Hx.
    specialize (Hx a). rewrite <- list_elem_of_In in Hx. specialize (Hx Ha).
    rewrite !andb_true_iff, Nat.eqb_eq, Nat.ltb_lt, existsb_arc in Hx.
    destruct Hx as [[-> ?] ?]. split; [lia | done].
  - destruct (IH (S i) k Hl Hk Ha) as (-> & ? & ?). split; [lia | done].
Qed.

Section WellFormed.
Variable network : Network.
Hypothesis Hwf : wf_network network.

Lemma wf_names : NoDup (name <$> nodes network).
Proof.
  unfold wf_network, wf_networkb in Hwf.
  rewrite !andb_true_iff in Hwf. destruct Hwf as [_ H].
  by apply names_distinct_NoDup.
Qed.

Lemma wf_arcs_out i node a :
  nodes network !! i = Some node → a ∈ arcs_out node →
  from_node a = i ∧ to_node a < length (nodes network) ∧ a ∈ arcs network.
Proof.
  unfold wf_network, wf_networkb in Hwf.
  rewrite !andb_true_iff in Hwf. destruct Hwf as [[H _] _].
  intros Hi Ha. by apply (arcs_out_ok_lookup _ _ _ _ _ _ H Hi Ha).
Qed.

Lemma wf_registered a :
  a ∈ arcs network →
  ∃ node, nodes network !! from_node a = Some node ∧ a ∈ arcs_out node.
Proof.
  unfold wf_network, wf_networkb in Hwf.
  rewrite !andb_true_iff in Hwf. destruct Hwf as [[_ H] _].
  intros Ha. rewrite forallb_forall in H.
  specialize (H a). rewrite <- list_elem_of_In in H. specialize (H Ha).
  unfold arc_registered in H.
  destruct (nodes network !! from_node a) as [node|]; [|done].
  exists node. split; [done|]. by apply existsb_arc.
Qed.

Lemma wf_get_node i node :
  nodes network !! i = Some node → get_node network (name node) = Some i.
Proof. apply find_node_unique, wf_names. Qed.

Lemma path_lt s v W : path network s v W → v < length (nodes network).
Proof.
  intros Hp. destruct Hp as [Hs | v a W Hp Ha Hv]; [done|].
  destruct (wf_registered a Ha) as (node & Hnode & Hout).
  by destruct (wf_arcs_out _ _ _ Hnode Hout) as (_ & ? & _).
Qed.
End WellFormed.

Lemma nonneg_weight network a :
  nonneg_weights network → a ∈ arcs network → (0 ≤ weight a)%Z.
Proof.
  unfold nonneg_weights. rewrite forallb_forall. intros H Ha.
  apply Z.leb_le, H. by apply list_elem_of_In.
Qed.

(** ** Networks built with add_node and add_arc are well-formed *)

Lemma arcs_out_ok_intro network i l :
  (∀ k node a, l !! k = Some node → a ∈ arcs_out node →
     from_node a = i + k
     ∧ to_node a < length (nodes network)
     ∧ a ∈ arcs network) →
  arcs_out_ok network i l = true.
Proof.
  revert i. induction l as [|x l IH]; intros i H; simpl; [done|].
  apply andb_true_iff. split.
  - apply forallb_forall. intros a Ha. apply list_elem_of_In in Ha.
    destruct (H 0 x a eq_refl Ha) as (Hf & Ht & Hin).
    rewrite !andb_true_iff, Nat.eqb_eq, Nat.ltb_lt, existsb_arc.
    split; [split; [lia | done] | done].
  - apply IH. intros k node a Hk Ha.
    destruct (H (S k) node a Hk Ha) as (Hf & Ht & Hin).
    split; [lia | done].
Qed.

Lemma names_distinct_intro l : NoDup l → names_distinct l = true.
Proof.
  induction 1 as [|x l Hx Hnd IH]; simpl; [done|].
  rewrite IH, andb_true_r. apply negb_true_iff, not_true_iff_false.
  rewrite existsb_exists. intros (y & Hy & Heq).
  apply String.eqb_eq in Heq as <-. by apply Hx, list_elem_of_In.
Qed.

Lemma wf_network_intro network :
  (∀ i node a, nodes network !! i = Some node → a ∈ arcs_out node →
     from_node a = i ∧ to_node a < length (nodes network) ∧ a ∈ arcs network) →
  (∀ a, a ∈ arcs network →
     ∃ node, nodes network !! from_node a = Some node ∧ a ∈ arcs_out node) →
  NoDup (name <$> nodes network) →
  wf_network network.
Proof.
  intros Hout Hreg Hnd. unfold wf_network, wf_networkb.
  rewrite !andb_true_iff. split; [split|].
  - apply arcs_out_ok_intro. intros k node a Hk Ha. exact (Hout k node a Hk Ha).
  - apply forallb_forall. intros a Ha. apply list_elem_of_In in Ha.
    destruct (Hreg a Ha) as (node & Hnode & Hin).
    unfold arc_registered. rewrite Hnode. by apply existsb_arc.
  - by apply names_distinct_intro.
Qed.

Lemma wf_empty_network : wf_network empty_network.
Proof. reflexivity. Qed.

(** [add_node] with a name that [get_node] does not find, as [read_network]
    calls it *)
Lemma wf_add_node network nm v :
  wf_network network →
  get_node network nm = None →
  wf_network (add_node network nm v).
Proof.
  intros Hwf Hfresh. apply wf_network_intro; unfold add_node; simpl.
  - intros i node a Hi Ha. rewrite length_app. simpl.
    apply lookup_snoc_Some in Hi as [[_ Hi] | [_ <-]].
    + destruct (wf_arcs_out _ Hwf _ _ _ Hi Ha) as (? & ? & ?).
      split; [done|]. split; [lia | done].
    + by apply elem_of_nil in Ha.
  - intros a Ha. destruct (wf_registered _ Hwf a Ha) as (node & Hnode & Hin).
    exists node. split; [by apply lookup_app_l_Some | done].
  - rewrite fmap_app. apply NoDup_app. split; [by apply wf_names|]. split.
    + intros x Hx Hx'. apply list_elem_of_singleton in Hx' as ->.
      by apply (find_node_None _ _ Hfresh).
    + apply NoDup_singleton.
Qed.

Lemma add_arc_lookup network node_from node_to w i :
  nodes (add_arc network node_from node_to w) !! i
  = (λ node,
       (if decide (node_to = i)
        then push_arc_in (mkArc w node_from node_to) else id)
         ((if decide (node_from = i)
           then push_arc_out (mkArc w node_from node_to) else id) node))
    <$> nodes network !! i.
Proof.
  unfold add_arc. simpl. rewrite !list_lookup_alter.
  destruct (decide (node_to = i)) as [->|]; destruct (decide (node_from = i)) as [->|];
    by destruct (nodes network !! i).
Qed.

(** [add_arc] between two nodes of the network *)
Lemma wf_add_arc network node_from node_to w :
  wf_network network →
  node_from < length (nodes network) →
  node_to < length (nodes network) →
  wf_network (add_arc network node_from node_to w).
Proof.
  intros Hwf Hf Ht.
  assert (length (nodes (add_arc network node_from node_to w))
          = length (nodes network)) as Hlen.
  { unfold add_arc. simpl. by rewrite !length_alter. }
  assert (∀ i node', nodes (add_arc network node_from node_to w) !! i = Some node' →
            ∃ node, nodes network !! i = Some node
                    ∧ name node' = name node
                    ∧ arcs_out node'
                      = arcs_out node
                        ++ (if decide (node_from = i)
                            then [mkArc w node_from node_to] else [])) as Hlook.
  { intros i node' Hi. rewrite add_arc_lookup in Hi.
    destruct (nodes network !! i) as [node|]; [|done].
    injection Hi as <-. exists node. split; [done|].
    destruct (decide (node_to = i)); destruct (decide (node_from = i)); simpl;
      by rewrite ?app_nil_r. }
  apply wf_network_intro.
  - intros i node' a Hi Ha. rewrite Hlen.
    destruct (Hlook i node' Hi) as (node & Hnode & _ & Hout).
    rewrite Hout in Ha. apply elem_of_app in Ha as [Ha|Ha].
    + destruct (wf_arcs_out _ Hwf _ _ _ Hnode Ha) as (? & ? & ?).
      split; [done|]. split; [done|]. unfold add_arc. simpl.
      apply elem_of_app. by left.
    + destruct (decide (node_from = i)) as [<-|]; [|by apply elem_of_nil in Ha].
      apply list_elem_of_singleton in Ha as ->. simpl.
      split; [done|]. split; [done|]. unfold add_arc. simpl.
      apply elem_of_app. right. by apply list_elem_of_singleton.
  - intros a Ha. unfold add_arc in Ha. simpl in Ha.
    assert (∃ node, nodes network !! from_node a = Some node
                    ∧ (a ∈ arcs_out node
                       ∨ (from_node a = node_from ∧ a = mkArc w node_from node_to)))
      as (node & Hnode & Hcase).
    { apply elem_of_app in Ha as [Ha|Ha].
      - destruct (wf_registered _ Hwf a Ha) as (node & Hnode & Hin). eauto.
      - apply list_elem_of_singleton in Ha as ->. simpl.
        apply lookup_lt_is_Some in Hf as [node Hnode]. eauto. }
    rewrite add_arc_lookup, Hnode. simpl. eexists. split; [done|].
    destruct (decide (node_to = from_node a)); destruct (decide (node_from = from_node a));
      simpl; rewrite ?elem_of_app, ?list_elem_of_singleton;
      destruct Hcase as [?|[? ?]]; auto; congruence.
  - replace (name <$> nodes (add_arc network node_from node_to w))
      with (name <$> nodes network); [by apply wf_names|].
    apply list_eq. intros i. rewrite !list_lookup_fmap, add_arc_lookup.
    destruct (nodes network !! i) as [node|]; [|done]. simpl.
    by destruct (decide (node_to = i)); destruct (decide (node_from = i)).
Qed.

Lemma nonneg_add_node network nm v :
  nonneg_weights network → nonneg_weights (add_node network nm v).
Proof. done. Qed.

Lemma nonneg_add_arc network node_from node_to w :
  nonneg_weights network → (0 ≤ w)%Z →
  nonneg_weights (add_arc network node_from node_to w).
Proof.
  unfold nonneg_weights, add_arc. simpl. intros Hnn Hw.
  rewrite forallb_app, Hnn. simpl. rewrite andb_true_r. by apply Z.leb_le.
Qed.

(** ** min over the unvisited set *)

Lemma min_scan_spec best rest :
  ∃ x, x ∈ best :: rest ∧ min_scan best rest = fst x
       ∧ ∀ y, y ∈ best :: rest → dist_le (snd x) (snd y).
Proof.
  revert best. induction rest as [|y rest IH]; intros best; simpl.
  - exists best. split; [left|]. split; [done|].
    intros y Hy. apply list_elem_of_singleton in Hy as ->. apply dist_le_refl.
  - destruct (dist_ltb (snd y) (snd best)) eqn:Hlt.
    + destruct (IH y) as (x & Hx & Hmin & Hle).
      exists x. split; [by right|]. split; [done|].
      intros y' Hy'. apply elem_of_cons in Hy' as [->|Hy']; [|by apply Hle].
      apply dist_le_trans with (snd y); [apply Hle; left|by apply dist_lt_le].
    + destruct (IH best) as (x & Hx & Hmin & Hle).
      exists x. split.
      { apply elem_of_cons in Hx as [->|Hx]; [left | right; by right]. }
      split; [done|].
      intros y' Hy'. apply elem_of_cons in Hy' as [->|Hy']; [apply Hle; left|].
      apply elem_of_cons in Hy' as [->|Hy']; [|apply Hle; by right].
      apply dist_le_trans with (snd best); [apply Hle; left | done].
Qed.

Lemma distance_key_Ok network nm kv :
  distance_key network nm = Ok kv →
  ∃ v, value_of network (get_node network nm) = Ok v ∧ kv = (nm, fst v).
Proof.
  unfold distance_key. intros H. apply bind_Ok in H as (v & Hv & H).
  injection H as <-. eauto.
Qed.

Lemma min_unvisited_Ok network unvisited m :
  min_unvisited network unvisited = Ok m →
  m ∈ unvisited
  ∧ ∃ vm, value_of network (get_node network m) = Ok vm
          ∧ ∀ nm, nm ∈ unvisited →
              ∃ v, value_of network (get_node network nm) = Ok v
                   ∧ dist_le (fst vm) (fst v).
Proof.
  unfold min_unvisited. intros H. apply bind_Ok in H as (keyed & Hk & Hmin).
  apply mapM_Ok in Hk.
  destruct keyed as [|x rest]; [done|]. simpl in Hmin. injection Hmin as <-.
  destruct (min_scan_spec x rest) as (x0 & Hx0 & -> & Hle).
  apply list_elem_of_lookup in Hx0 as [i Hi].
  destruct (Forall2_lookup_r _ _ _ _ _ Hk Hi) as (nm0 & Hnm0 & Hkey0).
  apply distance_key_Ok in Hkey0 as (vm & Hvm & ->). simpl.
  split; [by eapply list_elem_of_lookup_2|].
  exists vm. split; [done|]. intros nm Hnm.
  apply list_elem_of_lookup in Hnm as [j Hj].
  destruct (Forall2_lookup_l _ _ _ _ _ Hk Hj) as (kv & Hkv & Hkey).
  apply distance_key_Ok in Hkey as (v & Hv & ->).
  exists v. split; [done|].
  apply (Hle (nm, fst v)). by eapply list_elem_of_lookup_2.
Qed.

Lemma min_unvisited_progress network unvisited :
  unvisited ≠ [] →
  (∀ nm, nm ∈ unvisited → ∃ v, value_of network (get_node network nm) = Ok v) →
  ∃ m, min_unvisited network unvisited = Ok m.
Proof.
  intros Hne Hall. unfold min_unvisited.
  rewrite (mapM_Ok_fmap _ (λ nm, (nm, key_of network nm))).
  - destruct unvisited as [|x rest]; [done|]. simpl. eauto.
  - intros nm Hnm. destruct (Hall nm Hnm) as [v Hv].
    unfold distance_key, key_of. by rewrite Hv.
Qed.

(** The [except ValueError] branch is never taken: inside the [while] the set
    is not empty, and the key function raises other exceptions only. *)
Lemma value_of_not_ValueError network r :
  value_of network r ≠ Raise ValueError.
Proof.
  unfold value_of, deref. destruct r as [i|]; [|done].
  destruct (nodes network !! i) as [node|]; simpl; [|done].
  by destruct (value node).
Qed.

Lemma mapM_key_not_ValueError network l :
  mapM (distance_key network) l ≠ Raise ValueError.
Proof.
  induction l as [|x l IH]; simpl; [done|].
  assert (distance_key network x ≠ Raise ValueError) as Hx.
  { unfold distance_key.
    pose proof (value_of_not_ValueError network (get_node network x)).
    destruct (value_of network (get_node network x)); simpl; [done|congruence|done]. }
  destruct (distance_key network x) as [v|e|]; simpl; [|congruence|done].
  destruct (mapM (distance_key network) l) as [k|e|]; simpl; [done|congruence|done].
Qed.

Lemma min_unvisited_not_ValueError network x rest :
  min_unvisited network (x :: rest) ≠ Raise ValueError.
Proof.
  unfold min_unvisited.
  pose proof (mapM_key_not_ValueError network (x :: rest)) as Hm.
  destruct (mapM (distance_key network) (x :: rest)) as [k|e|] eqn:Hk;
    simpl; [|congruence|done].
  apply mapM_Ok, Forall2_length in Hk. by destruct k.
Qed.

(** ** discard *)

Lemma elem_of_discard x m unvisited :
  x ∈ discard m unvisited ↔ x ∈ unvisited ∧ x ≠ m.
Proof. unfold discard. rewrite list_elem_of_filter. tauto. Qed.

Lemma NoDup_discard m unvisited : NoDup unvisited → NoDup (discard m unvisited).
Proof. apply NoDup_filter. Qed.

Lemma discard_length_lt m unvisited :
  m ∈ unvisited → length (discard m unvisited) < length unvisited.
Proof.
  unfold discard. induction unvisited as [|x l IH]; intros Hm.
  - by apply elem_of_nil in Hm.
  - rewrite filter_cons. destruct (decide (x ≠ m)) as [Hne|Heq]; simpl.
    + apply elem_of_cons in Hm as [->|Hm]; [done|].
      specialize (IH Hm). lia.
    + pose proof (length_filter (λ y, y ≠ m) l). lia.
Qed.

Lemma discard_absent m unvisited : m ∉ unvisited → discard m unvisited = unvisited.
Proof.
  unfold discard. induction unvisited as [|x l IH]; intros Hm; [done|].
  apply not_elem_of_cons in Hm as [Hne Hm].
  rewrite filter_cons.
  destruct (decide (x ≠ m)) as [|n]; [|exfalso; apply n; congruence].
  by rewrite IH.
Qed.

Lemma discard_length_NoDup m unvisited :
  NoDup unvisited → m ∈ unvisited →
  S (length (discard m unvisited)) = length unvisited.
Proof.
  induction unvisited as [|x l IH]; intros Hnd Hm.
  - by apply elem_of_nil in Hm.
  - apply NoDup_cons in Hnd as [Hx Hnd]. unfold discard in *.
    rewrite filter_cons. destruct (decide (x ≠ m)) as [Hne|Heq]; simpl.
    + apply elem_of_cons in Hm as [->|Hm]; [done|]. by rewrite IH.
    + assert (x = m) as -> by (destruct (decide (x = m)); tauto).
      f_equal. f_equal. by apply discard_absent.
Qed.

(** ** One arc *)

Lemma relax_arc_Ok m network a network' :
  relax_arc m network a = Ok network' →
  ∃ vs vn,
    state_of network (from_node a) = Some vs
    ∧ state_of network (to_node a) = Some vn
    ∧ ((dist_lt (dist_add (weight a) (fst vs)) (fst vn)
        ∧ network' = set_value network (to_node a)
                       (dist_add (weight a) (fst vs), Some m))
       ∨ (dist_le (fst vn) (dist_add (weight a) (fst vs)) ∧ network' = network)).
Proof.
  unfold relax_arc. intros H.
  apply bind_Ok in H as (vs & Hvs & H).
  apply bind_Ok in H as (vn & Hvn & H).
  apply value_of_state in Hvs, Hvn.
  exists vs, vn. split; [done|]. split; [done|].
  destruct (dist_ltb (dist_add (weight a) (fst vs)) (fst vn)) eqn:Hlt;
    injection H as <-; [left | right]; done.
Qed.

Lemma relax_arc_progress m network a vs vn :
  state_of network (from_node a) = Some vs →
  state_of network (to_node a) = Some vn →
  ∃ network', relax_arc m network a = Ok network'.
Proof.
  intros Hvs Hvn. apply value_of_state in Hvs, Hvn.
  unfold relax_arc. cbv zeta. rewrite Hvs. unfold mbind, result_bind.
  rewrite Hvn. destruct (dist_ltb _ _); eauto.
Qed.

(** ** The code relaxes as the specification says *)

Lemma relax_arcs_relaxed solved m l network network' :
  (∀ a, a ∈ l → from_node a = solved) →
  relax_arcs m network l = Ok network' →
  relaxed solved m l network network'.
Proof.
  revert network. induction l as [|a l IH]; intros network Hfrom H; simpl in H.
  - injection H as <-. constructor.
  - apply bind_Ok in H as (network1 & Ha & H).
    apply relax_arc_Ok in Ha as (vs & vn & Hvs & Hvn & Hcase).
    rewrite (Hfrom a) in Hvs by left.
    assert (relaxed solved m l network1 network') as Hrest.
    { apply IH; [|done]. intros b Hb. apply Hfrom. by right. }
    destruct Hcase as [[Hlt ->] | [Hle ->]].
    + eapply relaxed_update; eauto.
    + eapply relaxed_keep; eauto.
Qed.

Lemma initialised_set_value network r v :
  initialised network → initialised (set_value network r v).
Proof.
  unfold initialised. intros Hinit i Hi.
  assert (i < length (nodes network)) as Hi'.
  { by rewrite <- (skeleton_length _ _ (skeleton_set_value network r v)). }
  destruct (decide (r = i)) as [->|Hne].
  - rewrite state_set_value_eq by done. eauto.
  - rewrite state_set_value_ne by done. auto.
Qed.

Lemma relax_arcs_progress m l network :
  initialised network →
  (∀ a, a ∈ l → from_node a < length (nodes network)
                ∧ to_node a < length (nodes network)) →
  ∃ network', relax_arcs m network l = Ok network'.
Proof.
  revert network. induction l as [|a l IH]; intros network Hinit Hl; simpl; [eauto|].
  destruct (Hl a) as [Hf Ht]; [left|].
  destruct (Hinit _ Hf) as [vs Hvs]. destruct (Hinit _ Ht) as [vn Hvn].
  destruct (relax_arc_progress m network a vs vn Hvs Hvn) as [network1 H1].
  rewrite H1. simpl.
  apply relax_arc_Ok in H1 as (vs' & vn' & _ & _ & [[_ ->] | [_ ->]]).
  - apply IH; [by apply initialised_set_value|].
    intros b Hb.
    rewrite (skeleton_length _ _ (skeleton_set_value network _ _)).
    apply Hl. by right.
  - apply IH; [done|]. intros b Hb. apply Hl. by right.
Qed.

(** ** What relaxation leaves alone *)

Section Relaxed.
Variables (solved : nat) (m : string).

Lemma relaxed_skeleton l network network' :
  relaxed solved m l network network' → skeleton network' = skeleton network.
Proof.
  induction 1 as [| a l n n' vs vn _ _ _ _ IH | a l n n' vs vn _ _ _ _ IH];
    [done | | done].
  by rewrite IH, skeleton_set_value.
Qed.

Lemma relaxed_initialised l network network' :
  relaxed solved m l network network' →
  initialised network → initialised network'.
Proof.
  induction 1 as [| a l n n' vs vn _ _ _ _ IH | a l n n' vs vn _ _ _ _ IH];
    auto using initialised_set_value.
Qed.

(** Tentative distances never grow *)
Lemma relaxed_monotone l network network' i :
  relaxed solved m l network network' →
  dist_le (tentative network' i) (tentative network i).
Proof.
  induction 1 as [| a l n n' vs vn Hvs Hvn Hlt _ IH | a l n n' vs vn _ _ _ _ IH];
    [apply dist_le_refl | | done].
  eapply dist_le_trans; [apply IH|].
  destruct (decide (to_node a = i)) as [<-|Hne].
  - rewrite (tentative_state _ _ _ (state_set_value_eq n _ _ (state_of_lt _ _ _ Hvn))).
    rewrite (tentative_state _ _ _ Hvn). by apply dist_lt_le.
  - unfold tentative. rewrite state_set_value_ne by done. apply dist_le_refl.
Qed.

(** A solved node at distance [Inf] relaxes nothing *)
Lemma relaxed_Inf l network network' :
  relaxed solved m l network network' →
  tentative network solved = Inf → network' = network.
Proof.
  induction 1 as [| a l n n' vs vn Hvs Hvn Hlt _ IH | a l n n' vs vn _ _ _ _ IH];
    intros Hinf; [done | | auto].
  rewrite (tentative_state _ _ _ Hvs) in Hinf. rewrite Hinf in Hlt.
  dist_cases.
Qed.

(** When no arc back to the solved node improves on its distance [ds]:
    the solved node keeps its state, every outgoing arc ends relaxed, and a
    node that changed took a strictly smaller candidate and the solved
    node's name. *)
Lemma relaxed_stable l network network' ds :
  relaxed solved m l network network' →
  tentative network solved = ds →
  (∀ a, a ∈ l → to_node a = solved → dist_le ds (dist_add (weight a) ds)) →
  state_of network' solved = state_of network solved
  ∧ (∀ a, a ∈ l → dist_le (tentative network' (to_node a)) (dist_add (weight a) ds))
  ∧ (∀ i, state_of network' i = state_of network i
          ∨ ∃ a, a ∈ l ∧ to_node a = i
                 ∧ state_of network' i = Some (dist_add (weight a) ds, Some m)
                 ∧ dist_lt (dist_add (weight a) ds) (tentative network i)).
Proof.
  induction 1 as [| a l n n' vs vn Hvs Hvn Hlt Hrest IH | a l n n' vs vn Hvs Hvn Hle Hrest IH];
    intros Hds Hself.
  - split; [done|]. split; [|by left].
    intros a Ha. by apply elem_of_nil in Ha.
  - assert (fst vs = ds) as Hvs' by (by rewrite <- Hds, (tentative_state _ _ _ Hvs)).
    rewrite Hvs' in *.
    assert (to_node a ≠ solved) as Hne.
    { intros Heq. rewrite Heq, Hvs in Hvn. injection Hvn as <-.
      rewrite Hvs' in Hlt.
      eapply dist_lt_not_le; [exact Hlt|]. apply Hself; [left | done]. }
    assert (to_node a < length (nodes n)) as Hrange by (by eapply state_of_lt).
    destruct IH as (IHs & IHarcs & IHch).
    { unfold tentative. by rewrite state_set_value_ne, Hvs. }
    { intros b Hb. apply Hself. by right. }
    rewrite state_set_value_ne in IHs by done.
    split; [done|]. split.
    + intros b Hb. apply elem_of_cons in Hb as [->|Hb]; [|by apply IHarcs].
      eapply dist_le_trans; [eapply relaxed_monotone, Hrest|].
      rewrite (tentative_state _ _ _ (state_set_value_eq n _ _ Hrange)).
      apply dist_le_refl.
    + intros i. destruct (IHch i) as [Hsame | (b & Hb & Hto & Hst & Hblt)].
      * destruct (decide (to_node a = i)) as [<-|Hni].
        -- right. exists a. split; [left|]. split; [done|].
           rewrite Hsame, state_set_value_eq by done. split; [done|].
           by rewrite (tentative_state _ _ _ Hvn).
        -- left. by rewrite Hsame, state_set_value_ne.
      * right. exists b. split; [by right|]. split; [done|]. split; [done|].
        eapply dist_lt_le_trans; [exact Hblt|].
        destruct (decide (to_node a = i)) as [<-|Hni].
        -- rewrite (tentative_state _ _ _ (state_set_value_eq n _ _ Hrange)).
           rewrite (tentative_state _ _ _ Hvn). by apply dist_lt_le.
        -- unfold tentative. rewrite state_set_value_ne by done. apply dist_le_refl.
  - assert (fst vs = ds) as Hvs' by (by rewrite <- Hds, (tentative_state _ _ _ Hvs)).
    rewrite Hvs' in *.
    destruct IH as (IHs & IHarcs & IHch); [done | |].
    { intros b Hb. apply Hself. by right. }
    split; [done|]. split.
    + intros b Hb. apply elem_of_cons in Hb as [->|Hb]; [|by apply IHarcs].
      eapply dist_le_trans; [eapply relaxed_monotone, Hrest|].
      by rewrite (tentative_state _ _ _ Hvn).
    + intros i. destruct (IHch i) as [Hsame | (b & Hb & Hrest')]; [by left|].
      right. exists b. split; [by right | done].
Qed.
End Relaxed.

(** ** One call of spath_iteration *)

Lemma spath_iteration_nil network :
  spath_iteration network [] = Ok (None, network, []).
Proof. done. Qed.

Lemma spath_iteration_Some network unvisited m network' unvisited' :
  spath_iteration network unvisited = Ok (Some m, network', unvisited') →
  min_unvisited network unvisited = Ok m
  ∧ unvisited' = discard m unvisited
  ∧ ∃ mi node,
      get_node network m = Some mi
      ∧ nodes network !! mi = Some node
      ∧ name node = m
      ∧ relax_arcs m network (arcs_out node) = Ok network'.
Proof.
  unfold spath_iteration. destruct unvisited as [|x rest]; [done|].
  destruct (min_unvisited network (x :: rest)) as [solved_name|e|]; [| by destruct e | done].
  destruct (get_node network solved_name) as [mi|] eqn:Hmi; [|done].
  intros H. apply bind_Ok in H as (node & Hnode & H).
  apply bind_Ok in H as (network1 & Hrelax & H).
  injection H as -> -> ->.
  unfold deref in Hnode.
  destruct (nodes network !! mi) as [node'|] eqn:Hlook; [|done].
  injection Hnode as ->.
  destruct (get_node_Some _ _ _ Hmi) as (node'' & Hlook' & Hname).
  rewrite Hlook in Hlook'. injection Hlook' as <-.
  rewrite Hname in Hrelax.
  split; [done|]. split; [done|]. exists mi, node. done.
Qed.

Lemma spath_iteration_None network unvisited network' unvisited' :
  spath_iteration network unvisited = Ok (None, network', unvisited') →
  unvisited = [] ∧ network' = network ∧ unvisited' = [].
Proof.
  unfold spath_iteration. destruct unvisited as [|x rest].
  - by intros [= <- <-].
  - pose proof (min_unvisited_not_ValueError network x rest) as Hnv.
    destruct (min_unvisited network (x :: rest)) as [solved_name|e|];
      [| by destruct e | done].
    destruct (get_node network solved_name) as [mi|]; [|done].
    intros H. apply bind_Ok in H as (node & _ & H).
    apply bind_Ok in H as (network1 & _ & H). done.
Qed.

Lemma spath_iteration_progress network unvisited :
  initialised network →
  (∀ i node a, nodes network !! i = Some node → a ∈ arcs_out node →
     from_node a < length (nodes network) ∧ to_node a < length (nodes network)) →
  unvisited ≠ [] →
  (∀ nm, nm ∈ unvisited → is_Some (get_node network nm)) →
  ∃ m network',
    spath_iteration network unvisited = Ok (Some m, network', discard m unvisited).
Proof.
  intros Hinit Harcs Hne Hnames.
  destruct (min_unvisited_progress network unvisited Hne) as [m Hm].
  { intros nm Hnm. destruct (Hnames nm Hnm) as [i Hi]. rewrite Hi.
    destruct (get_node_Some _ _ _ Hi) as (node & Hnode & _).
    destruct (Hinit i) as [v Hv]; [by eapply lookup_lt_Some|].
    exists v. by apply value_of_state. }
  destruct (min_unvisited_Ok _ _ _ Hm) as (Hin & _).
  destruct (Hnames m Hin) as [mi Hmi].
  destruct (get_node_Some _ _ _ Hmi) as (node & Hnode & Hname).
  destruct (relax_arcs_progress (name node) (arcs_out node) network Hinit)
    as [network' Hrelax]; [by eauto|].
  exists m, network'. unfold spath_iteration.
  destruct unvisited as [|x rest]; [done|].
  rewrite Hm, Hmi. unfold deref. rewrite Hnode. simpl. rewrite Hrelax. done.
Qed.

(** ** Nothing but a loop can exhaust its budget *)

Lemma bind_no_timeout {A B} (m : result A) (f : A → result B) :
  m ≠ OutOfFuel → (∀ a, f a ≠ OutOfFuel) → m ≫= f ≠ OutOfFuel.
Proof. destruct m; simpl; auto. Qed.

Lemma value_of_no_timeout network r : value_of network r ≠ OutOfFuel.
Proof.
  unfold value_of, deref. destruct r as [i|]; [|done].
  destruct (nodes network !! i) as [node|]; simpl; [|done].
  by destruct (value node).
Qed.

Lemma mapM_no_timeout {A B} (f : A → result B) l :
  (∀ x, f x ≠ OutOfFuel) → mapM f l ≠ OutOfFuel.
Proof.
  intros Hf. induction l as [|x l IH]; simpl; [done|].
  apply bind_no_timeout; [done|]. intros y.
  apply bind_no_timeout; [done|]. done.
Qed.

Lemma min_unvisited_no_timeout network unvisited :
  min_unvisited network unvisited ≠ OutOfFuel.
Proof.
  unfold min_unvisited. apply bind_no_timeout.
  - apply mapM_no_timeout. intros nm. unfold distance_key.
    apply bind_no_timeout; [apply value_of_no_timeout | done].
  - intros keyed. by destruct keyed.
Qed.

Lemma relax_arcs_no_timeout m l network : relax_arcs m network l ≠ OutOfFuel.
Proof.
  revert network. induction l as [|a l IH]; intros network; simpl; [done|].
  apply bind_no_timeout; [|done].
  unfold relax_arc. cbv zeta.
  apply bind_no_timeout; [apply value_of_no_timeout|]. intros vp.
  apply bind_no_timeout; [apply value_of_no_timeout|]. intros vn.
  by destruct (dist_ltb _ _).
Qed.

Lemma spath_iteration_no_timeout network unvisited :
  spath_iteration network unvisited ≠ OutOfFuel.
Proof.
  unfold spath_iteration. destruct unvisited as [|x rest]; [done|].
  pose proof (min_unvisited_no_timeout network (x :: rest)) as Hm.
  destruct (min_unvisited network (x :: rest)) as [solved_name|e|];
    [| by destruct e | done].
  destruct (get_node network solved_name) as [mi|]; [|done].
  apply bind_no_timeout.
  - unfold deref. by destruct (nodes network !! mi).
  - intros node. apply bind_no_timeout; [apply relax_arcs_no_timeout | done].
Qed.

(** ** The search loop ends *)

Lemma search_loop_None fuel network unvisited d steps :
  search_loop fuel network unvisited None d steps
  = Ok (None, network, unvisited, steps).
Proof. by destruct fuel. Qed.

Lemma search_loop_found fuel network unvisited d steps :
  search_loop fuel network unvisited (Some d) d steps
  = Ok (Some d, network, unvisited, steps).
Proof. destruct fuel; simpl; by rewrite String.eqb_refl. Qed.

(** Each call that solves a node removes a name from the unvisited set, so a
    budget above the size of the set is never used up, and the count of
    solving calls grows by at most the number of names removed. *)
Lemma search_loop_bound fuel network unvisited solved d steps :
  length unvisited < fuel →
  match search_loop fuel network unvisited solved d steps with
  | Ok (_, _, unvisited', steps') =>
      steps' + length unvisited' ≤ steps + length unvisited
  | Raise _ => True
  | OutOfFuel => False
  end.
Proof.
  revert network unvisited solved steps.
  induction fuel as [|fuel IH]; intros network unvisited solved steps Hfuel; [lia|].
  destruct solved as [nm|]; simpl; [|lia].
  destruct (String.eqb nm d); [lia|].
  pose proof (spath_iteration_no_timeout network unvisited) as Hnt.
  destruct (spath_iteration network unvisited) as [[[solved' network'] unvisited']|e|] eqn:Hit;
    simpl; [|done|done].
  destruct solved' as [m|].
  - apply spath_iteration_Some in Hit as (Hmin & -> & _).
    apply min_unvisited_Ok in Hmin as [Hin _].
    pose proof (discard_length_lt m unvisited Hin) as Hlt.
    specialize (IH network' (discard m unvisited) (Some m) (solved_count (Some m) + steps)).
    destruct (search_loop fuel network' (discard m unvisited) (Some m) d
                (solved_count (Some m) + steps)) as [[[[? ?] U''] steps'']|e|];
      [|done|]; simpl in IH; lia.
  - apply spath_iteration_None in Hit as (-> & -> & ->).
    rewrite search_loop_None. simpl. lia.
Qed.

(** ** Following predecessors *)

Lemma follow_predecessors_unfold fuel network current_node path :
  follow_predecessors fuel network current_node path
  = v ← value_of network current_node;
    match snd v with
    | None => Ok path
    | Some predecessor_name =>
        match fuel with
        | O => OutOfFuel
        | S fuel' =>
            follow_predecessors fuel' network (get_node network predecessor_name)
              (path ++ [predecessor_name])
        end
    end.
Proof. by destruct fuel. Qed.

Lemma follow_predecessors_chain network order :
  chain_ok network order →
  (∀ i, i ∈ order → is_Some (state_of network i)) →
  ∀ i fuel acc, i ∈ order → length order ≤ fuel →
    ∃ l, follow_predecessors fuel network (Some i) acc = Ok l.
Proof.
  induction order as [|i0 earlier IH]; intros Hchain Hst i fuel acc Hi Hfuel.
  - by apply elem_of_nil in Hi.
  - simpl in Hchain. destruct Hchain as [Hi0 Hchain]. simpl in Hfuel.
    assert (∀ j, j ∈ earlier → is_Some (state_of network j)) as Hst'.
    { intros j Hj. apply Hst. by right. }
    apply elem_of_cons in Hi as [->|Hi]; [|apply IH; auto; lia].
    destruct (Hst i0) as [v Hv]; [left|].
    destruct fuel as [|fuel]; [lia|].
    rewrite follow_predecessors_unfold, (proj2 (value_of_state _ _ _) Hv).
    unfold mbind, result_bind.
    rewrite (predecessor_state _ _ _ Hv) in Hi0.
    destruct Hi0 as [-> | (pn & j & -> & Hj & Hin)]; [eauto|].
    rewrite Hj. apply IH; auto. lia.
Qed.

Lemma follow_predecessors_none fuel network i acc v :
  state_of network i = Some v → snd v = None →
  follow_predecessors fuel network (Some i) acc = Ok acc.
Proof.
  intros Hv Hp. apply value_of_state in Hv.
  rewrite follow_predecessors_unfold, Hv. unfold mbind, result_bind.
  by rewrite Hp.
Qed.

(** ** The initial search state *)

Lemma remove_dups_NoDup (l : list string) : NoDup l → remove_dups l = l.
Proof.
  induction l as [|x l IH]; intros Hnd; [done|].
  apply NoDup_cons in Hnd as [Hx Hnd]. simpl.
  destruct (decide_rel elem_of x l); [done|]. by rewrite IH.
Qed.

Lemma remove_dups_length (l : list string) : length (remove_dups l) ≤ length l.
Proof.
  induction l as [|x l IH]; simpl; [lia|].
  destruct (decide_rel elem_of x l); simpl; lia.
Qed.

Lemma skeleton_reset network :
  skeleton (reset_search_state network) = skeleton network.
Proof.
  unfold skeleton, reset_search_state. simpl. f_equal.
  rewrite <- list_fmap_compose. by apply list_fmap_ext.
Qed.

Lemma state_reset network i :
  i < length (nodes network) →
  state_of (reset_search_state network) i = Some (Inf, None).
Proof.
  intros Hi. unfold state_of, reset_search_state. simpl.
  rewrite list_lookup_fmap.
  apply lookup_lt_is_Some in Hi as [node ->]. done.
Qed.

Lemma no_negative_self_loop_weight node i a :
  no_negative_self_loop node i = true →
  a ∈ arcs_out node → to_node a = i → (0 ≤ weight a)%Z.
Proof.
  unfold no_negative_self_loop. rewrite forallb_forall. intros H Ha Hto.
  specialize (H a). rewrite <- list_elem_of_In in H. specialize (H Ha).
  apply orb_true_iff in H as [H|H]; [|by apply Z.leb_le].
  apply negb_true_iff, Nat.eqb_neq in H. done.
Qed.

Lemma chain_ok_same network network' order :
  (∀ i, i ∈ order → predecessor network' i = predecessor network i) →
  (∀ pn, get_node network' pn = get_node network pn) →
  chain_ok network order → chain_ok network' order.
Proof.
  intros Hpred Hget. induction order as [|i order IH]; simpl; [done|].
  intros [Hi Hrest]. split.
  - rewrite Hpred by left.
    destruct Hi as [Hi | (pn & j & Hp & Hj & Hin)]; [by left|].
    right. exists pn, j. by rewrite Hget.
  - apply IH; [|done]. intros j Hj. apply Hpred. by right.
Qed.


(** ** Searches, for any iteration order of the unvisited set *)

Section SetOrder.
Variable set_order : list string → list string.
Hypothesis Hperm : set_order_ok set_order.

Lemma unvisited_NoDup (l : list string) : NoDup (set_order (remove_dups l)).
Proof. rewrite (Hperm _). apply NoDup_remove_dups. Qed.

Lemma unvisited_elem (l : list string) nm :
  nm ∈ set_order (remove_dups l) ↔ nm ∈ l.
Proof. rewrite (Hperm _). apply elem_of_remove_dups. Qed.

Lemma unvisited_length (l : list string) :
  length (set_order (remove_dups l)) ≤ length l.
Proof. rewrite (Hperm _). apply remove_dups_length. Qed.

Lemma unvisited_length_NoDup (l : list string) :
  NoDup l → length (set_order (remove_dups l)) = length l.
Proof. intros Hnd. by rewrite (Hperm _), remove_dups_NoDup. Qed.

Lemma spath_search_completed fuel network source destination :
  spath_search (completed_globals set_order) fuel network source destination
  = '(network0, unvisited_set) ← spath_initialise set_order network source;
    '(solved_node_name, network1, unvisited1) ← spath_iteration network0 unvisited_set;
    search_loop fuel network1 unvisited1 solved_node_name destination
      (solved_count solved_node_name).
Proof. reflexivity. Qed.

Lemma spath_initialise_Ok network0 s network unvisited :
  spath_initialise set_order network0 s = Ok (network, unvisited) →
  ∃ si,
    get_node network0 s = Some si
    ∧ si < length (nodes network0)
    ∧ skeleton network = skeleton network0
    ∧ unvisited = set_order (remove_dups (name <$> nodes network0))
    ∧ state_of network si = Some (Fin 0, None)
    ∧ ∀ i, i ≠ si → i < length (nodes network0) →
           state_of network i = Some (Inf, None).
Proof.
  unfold spath_initialise. cbv zeta.
  rewrite (get_node_same _ network0) by apply skeleton_reset.
  destruct (get_node network0 s) as [si|] eqn:Hsi; [|done].
  intros [= <- <-]. exists si.
  destruct (get_node_Some _ _ _ Hsi) as (node & Hnode & _).
  apply lookup_lt_Some in Hnode.
  assert (length (nodes (reset_search_state network0)) = length (nodes network0)) as Hlen.
  { apply skeleton_length, skeleton_reset. }
  split; [done|]. split; [done|]. split.
  { by rewrite skeleton_set_value, skeleton_reset. }
  split; [done|]. split.
  - apply state_set_value_eq. by rewrite Hlen.
  - intros i Hne Hi. rewrite state_set_value_ne by done. by apply state_reset.
Qed.

Lemma spath_initialise_progress network0 s si :
  get_node network0 s = Some si →
  ∃ network unvisited, spath_initialise set_order network0 s = Ok (network, unvisited).
Proof.
  intros Hsi. unfold spath_initialise. cbv zeta.
  rewrite (get_node_same _ network0) by apply skeleton_reset.
  rewrite Hsi. eauto.
Qed.

Lemma spath_initialise_unknown network0 s :
  get_node network0 s = None → spath_initialise set_order network0 s = Raise AttributeError.
Proof.
  intros Hs. unfold spath_initialise. cbv zeta.
  rewrite (get_node_same _ network0) by apply skeleton_reset.
  by rewrite Hs.
Qed.

Lemma search_inv_start network0 s si network unvisited :
  wf_network network0 →
  get_node network0 s = Some si →
  spath_initialise set_order network0 s = Ok (network, unvisited) →
  search_inv network0 si network unvisited [].
Proof.
  intros Hwf Hsi Hinit.
  apply spath_initialise_Ok in Hinit
    as (si' & Hsi' & Hlt & Hshape & -> & Hsrc & Hother).
  rewrite Hsi in Hsi'. injection Hsi' as <-.
  pose proof (wf_names _ Hwf) as Hnd.
  pose proof (unvisited_NoDup (name <$> nodes network0)) as HUnd.
  pose proof (unvisited_elem (name <$> nodes network0)) as HUin.
  pose proof (unvisited_length_NoDup _ Hnd) as HUlen.
  rewrite length_fmap in HUlen.
  assert (∀ i, i < length (nodes network0) → predecessor network i = None) as Hpred.
  { intros i Hi. destruct (decide (i = si)) as [->|Hne].
    - by rewrite (predecessor_state _ _ _ Hsrc).
    - by rewrite (predecessor_state _ _ _ (Hother i Hne Hi)). }
  assert (∀ i, predecessor network i = None) as Hpred'.
  { intros i. destruct (decide (i < length (nodes network0))) as [Hi|Hi]; [auto|].
    unfold predecessor, state_of.
    rewrite lookup_ge_None_2; [done|].
    rewrite (skeleton_length _ _ Hshape). lia. }
  split; try done.
  - intros i Hi. destruct (decide (i = si)) as [->|Hne]; [eauto|].
    rewrite (Hother i Hne Hi). eauto.
  - intros i node Hnode. split; [intros _; apply not_elem_of_nil|].
    intros _. apply HUin, list_elem_of_fmap. exists node. split; [done|].
    by eapply list_elem_of_lookup_2.
  - intros nm Hnm. apply HUin in Hnm. by apply find_node_elem.
  - intros i Hi. by apply elem_of_nil in Hi.
  - rewrite (tentative_state _ _ _ Hsrc). apply dist_le_refl.
  - intros i z Hz. destruct (decide (i = si)) as [->|Hne].
    + rewrite (tentative_state _ _ _ Hsrc) in Hz. injection Hz as <-.
      by constructor.
    + destruct (decide (i < length (nodes network0))) as [Hi|Hi].
      * by rewrite (tentative_state _ _ _ (Hother i Hne Hi)) in Hz.
      * unfold tentative, state_of in Hz.
        rewrite lookup_ge_None_2 in Hz; [done|].
        rewrite (skeleton_length _ _ Hshape). lia.
  - intros i node a Hi. by apply elem_of_nil in Hi.
  - intros i j Hi. by apply elem_of_nil in Hi.
  - intros i W Hi. by apply elem_of_nil in Hi.
  - intros i pn Hp. by rewrite Hpred' in Hp.
Qed.

(** ** The invariant of the search *)

Section Search.
Variables (network0 : Network) (s : nat).
Hypothesis Hwf : wf_network network0.
Hypothesis Hnn : nonneg_weights network0.

(** A path from the source either bounds the tentative distance of its end
    or that of some unsolved node. *)
Lemma frontier_bound network unvisited order v W :
  search_inv network0 s network unvisited order →
  path network0 s v W →
  dist_le (tentative network v) (Fin W)
  ∨ ∃ j, j < length (nodes network0) ∧ (j ∉ order)
         ∧ dist_le (tentative network j) (Fin W).
Proof.
  intros Hinv Hp. induction Hp as [Hs | v a W Hp IH Ha Hv].
  - left. apply (inv_source _ _ _ _ _ Hinv).
  - pose proof (nonneg_weight _ _ Hnn Ha) as Hw.
    destruct IH as [IH | (j & Hj & Hjo & Hle)].
    + destruct (decide (v ∈ order)) as [Hvo|Hvo].
      * left. destruct (wf_registered _ Hwf a Ha) as (node & Hnode & Hout).
        rewrite Hv in Hnode.
        pose proof (inv_relaxed _ _ _ _ _ Hinv v node a Hvo Hnode Hout) as Hr.
        eapply dist_le_trans; [exact Hr|].
        eapply dist_le_trans; [apply dist_add_mono, IH|].
        simpl. dist_cases.
      * right. exists v. split; [by eapply path_lt|]. split; [done|].
        eapply dist_le_trans; [exact IH|]. dist_cases.
    + right. exists j. split; [done|]. split; [done|].
      eapply dist_le_trans; [exact Hle|]. dist_cases.
Qed.

(** The node [min] picks is no farther than any unsolved node. *)
Lemma min_is_closest network unvisited order m mi :
  search_inv network0 s network unvisited order →
  min_unvisited network unvisited = Ok m →
  get_node network0 m = Some mi →
  ∀ j, j < length (nodes network0) → j ∉ order →
       dist_le (tentative network mi) (tentative network j).
Proof.
  intros Hinv Hmin Hmi j Hj Hjo.
  pose proof (inv_shape _ _ _ _ _ Hinv) as Hshape.
  apply min_unvisited_Ok in Hmin as (_ & vm & Hvm & Hall).
  rewrite (get_node_same _ _ m Hshape), Hmi in Hvm.
  apply value_of_state in Hvm. rewrite (tentative_state _ _ _ Hvm).
  apply lookup_lt_is_Some in Hj as [node Hnode].
  destruct (Hall (name node)) as (v & Hv & Hle).
  { by apply (inv_partition _ _ _ _ _ Hinv j node Hnode). }
  rewrite (get_node_same _ _ _ Hshape), (wf_get_node _ Hwf _ _ Hnode) in Hv.
  apply value_of_state in Hv. by rewrite (tentative_state _ _ _ Hv).
Qed.

(** One solving call of [spath_iteration] keeps the invariant, lowers no
    tentative distance of a solved node and raises none at all. *)
Lemma search_inv_step network unvisited order m network' unvisited' :
  search_inv network0 s network unvisited order →
  spath_iteration network unvisited = Ok (Some m, network', unvisited') →
  ∃ mi,
    get_node network0 m = Some mi
    ∧ (mi ∉ order)
    ∧ search_inv network0 s network' unvisited' (mi :: order)
    ∧ (∀ i, dist_le (tentative network' i) (tentative network i))
    ∧ (∀ i, i ∈ mi :: order → state_of network' i = state_of network i).
Proof.
  intros Hinv Hit.
  pose proof (inv_shape _ _ _ _ _ Hinv) as Hshape.
  apply spath_iteration_Some in Hit
    as (Hmin & -> & mi & node & Hmi & Hnode & Hname & Hrelax).
  rewrite (get_node_same _ _ m Hshape) in Hmi.
  destruct (skeleton_lookup _ _ _ _ Hshape Hnode) as (node0 & Hnode0 & Hname0 & Hout0).
  assert (mi < length (nodes network0)) as Hmilt by (by eapply lookup_lt_Some).
  assert (m ∈ unvisited) as Hmin_in by (by apply min_unvisited_Ok in Hmin as [? _]).
  assert (mi ∉ order) as Hmio.
  { apply (inv_partition _ _ _ _ _ Hinv mi node0 Hnode0). congruence. }
  assert (∀ a, a ∈ arcs_out node →
            from_node a = mi ∧ to_node a < length (nodes network0)
            ∧ a ∈ arcs network0 ∧ (0 ≤ weight a)%Z) as Harc.
  { intros a Ha. rewrite <- Hout0 in Ha.
    destruct (wf_arcs_out _ Hwf _ _ _ Hnode0 Ha) as (? & ? & ?).
    repeat split; try done. by eapply nonneg_weight. }
  assert (relaxed mi m (arcs_out node) network network') as Hrel.
  { apply relax_arcs_relaxed; [|done]. intros a Ha. by apply Harc. }
  pose proof (min_is_closest _ _ _ _ _ Hinv Hmin Hmi) as Hclosest.
  destruct (relaxed_stable mi m _ _ _ (tentative network mi) Hrel eq_refl)
    as (Hself & Hdone & Hchange).
  { intros a Ha _. apply dist_add_nonneg. by apply Harc. }
  pose proof (λ i, relaxed_monotone mi m _ _ _ i Hrel) as Hmono.
  assert (∀ i, i ∈ mi :: order → state_of network' i = state_of network i) as Hkeep.
  { intros i Hi. apply elem_of_cons in Hi as [->|Hi]; [done|].
    destruct (Hchange i) as [Hsame | (a & Ha & _ & _ & Hlt)]; [done|].
    exfalso. eapply dist_lt_not_le; [exact Hlt|].
    eapply dist_le_trans; [by apply (inv_frontier _ _ _ _ _ Hinv i mi)|].
    apply dist_add_nonneg. by apply Harc. }
  assert (∀ i, i ∈ mi :: order → tentative network' i = tentative network i) as Hkeep_t.
  { intros i Hi. unfold tentative. by rewrite Hkeep. }
  assert (∀ i, i ∈ mi :: order → predecessor network' i = predecessor network i) as Hkeep_p.
  { intros i Hi. unfold predecessor. by rewrite Hkeep. }
  pose proof (relaxed_skeleton mi m _ _ _ Hrel) as Hshape'.
  exists mi. split; [done|]. split; [done|]. split; [|done].
  split.
  - by rewrite Hshape'.
  - intros i Hi.
    apply (relaxed_initialised mi m _ _ _ Hrel).
    + intros j Hj. apply (inv_init _ _ _ _ _ Hinv).
      by rewrite <- (skeleton_length _ _ Hshape).
    + by rewrite (skeleton_length _ _ Hshape'), (skeleton_length _ _ Hshape).
  - apply NoDup_discard, (inv_nodup _ _ _ _ _ Hinv).
  - intros i nd Hnd. rewrite elem_of_discard, not_elem_of_cons.
    rewrite (inv_partition _ _ _ _ _ Hinv i nd Hnd).
    assert (name nd ≠ m ↔ i ≠ mi) as Hiff.
    { split; intros Hne Heq; apply Hne.
      - subst i. rewrite Hnode0 in Hnd. injection Hnd as <-. congruence.
      - pose proof (wf_get_node _ Hwf _ _ Hnd) as Hg.
        rewrite Heq, Hmi in Hg. by injection Hg. }
    tauto.
  - intros nm Hnm. apply elem_of_discard in Hnm as [Hnm _].
    by apply (inv_names _ _ _ _ _ Hinv).
  - pose proof (inv_count _ _ _ _ _ Hinv) as Hc.
    pose proof (discard_length_NoDup m unvisited (inv_nodup _ _ _ _ _ Hinv) Hmin_in).
    simpl. lia.
  - intros i Hi. apply elem_of_cons in Hi as [->|Hi]; [done|].
    by apply (inv_range _ _ _ _ _ Hinv).
  - eapply dist_le_trans; [apply Hmono | apply (inv_source _ _ _ _ _ Hinv)].
  - intros i z Hz.
    destruct (Hchange i) as [Hsame | (a & Ha & Hto & Hst & Hlt)].
    + apply (inv_reach _ _ _ _ _ Hinv). unfold tentative in *. by rewrite <- Hsame.
    + rewrite (tentative_state _ _ _ Hst) in Hz. simpl in Hz.
      destruct (tentative network mi) as [zs|] eqn:Hzs; [|done].
      simpl in Hz. injection Hz as <-. rewrite <- Hto.
      replace (weight a + zs)%Z with (zs + weight a)%Z by lia.
      eapply path_step; [|by apply Harc..].
      by apply (inv_reach _ _ _ _ _ Hinv).
  - intros i nd a Hi Hnd Ha. rewrite (Hkeep_t i Hi).
    apply elem_of_cons in Hi as [->|Hi].
    + rewrite Hnode0 in Hnd. injection Hnd as <-.
      apply Hdone. by rewrite <- Hout0.
    + eapply dist_le_trans; [apply Hmono|].
      by apply (inv_relaxed _ _ _ _ _ Hinv i nd a).
  - intros i j Hi Hj Hjo. apply not_elem_of_cons in Hjo as [Hjmi Hjo].
    rewrite (Hkeep_t i Hi).
    apply dist_le_trans with (tentative network mi).
    { apply elem_of_cons in Hi as [->|Hi]; [apply dist_le_refl|].
      by apply (inv_frontier _ _ _ _ _ Hinv i mi). }
    destruct (Hchange j) as [Hsame | (a & Ha & _ & Hst & _)].
    + unfold tentative at 2. rewrite Hsame. by apply Hclosest.
    + rewrite (tentative_state _ _ _ Hst). simpl.
      apply dist_add_nonneg. by apply Harc.
  - intros i W Hi Hp. rewrite (Hkeep_t i Hi).
    apply elem_of_cons in Hi as [->|Hi]; [|by apply (inv_final _ _ _ _ _ Hinv)].
    destruct (frontier_bound _ _ _ _ _ Hinv Hp) as [Hle | (j & Hj & Hjo & Hle)];
      [done|].
    eapply dist_le_trans; [by apply Hclosest | done].
  - intros i pn Hp.
    destruct (Hchange i) as [Hsame | (a & Ha & _ & Hst & _)].
    + unfold predecessor in Hp. rewrite Hsame in Hp.
      destruct (inv_pred _ _ _ _ _ Hinv i pn Hp) as (j & Hj & Hjo).
      exists j. split; [done | by right].
    + rewrite (predecessor_state _ _ _ Hst) in Hp. simpl in Hp.
      injection Hp as <-. exists mi. split; [done | left].
  - simpl. split.
    + rewrite (Hkeep_p mi) by left.
      destruct (predecessor network mi) as [pn|] eqn:Hp; [|by left].
      destruct (inv_pred _ _ _ _ _ Hinv mi pn Hp) as (j & Hj & Hjo).
      right. exists pn, j. split; [done|]. split; [|done].
      by rewrite (get_node_same _ network0) by (by rewrite Hshape').
    + apply (chain_ok_same network).
      * intros i Hi. apply Hkeep_p. by right.
      * intros pn. by apply get_node_same.
      * apply (inv_chain _ _ _ _ _ Hinv).
  - intros i Hinf.
    destruct (Hchange i) as [Hsame | (a & Ha & _ & Hst & Hlt)].
    + unfold predecessor, tentative in *. rewrite Hsame in *.
      by apply (inv_unreached _ _ _ _ _ Hinv).
    + rewrite (tentative_state _ _ _ Hst) in Hinf. simpl in Hinf.
      apply dist_lt_Fin in Hlt as [z Hz]. congruence.
Qed.

Lemma search_inv_progress network unvisited order :
  search_inv network0 s network unvisited order →
  unvisited ≠ [] →
  ∃ m network',
    spath_iteration network unvisited = Ok (Some m, network', discard m unvisited).
Proof.
  intros Hinv Hne.
  pose proof (inv_shape _ _ _ _ _ Hinv) as Hshape.
  pose proof (skeleton_length _ _ Hshape) as Hlen.
  apply spath_iteration_progress; [| |done|].
  - intros i Hi. apply (inv_init _ _ _ _ _ Hinv). by rewrite <- Hlen.
  - intros i node a Hnode Ha.
    destruct (skeleton_lookup _ _ _ _ Hshape Hnode) as (node0 & Hnode0 & _ & Hout).
    rewrite <- Hout in Ha.
    destruct (wf_arcs_out _ Hwf _ _ _ Hnode0 Ha) as (-> & ? & _).
    rewrite Hlen. split; [by eapply lookup_lt_Some | done].
  - intros nm Hnm. rewrite (get_node_same _ _ nm Hshape).
    by apply (inv_names _ _ _ _ _ Hinv).
Qed.

(** The loop of the driver, entered after a call that solved [last]: it
    stops with the destination solved. *)
Lemma search_loop_reaches fuel network unvisited li earlier last d di steps :
  search_inv network0 s network unvisited (li :: earlier) →
  get_node network0 last = Some li →
  get_node network0 d = Some di →
  di ∉ earlier →
  length unvisited < fuel →
  ∃ network' unvisited' order' steps',
    search_loop fuel network unvisited (Some last) d steps
    = Ok (Some d, network', unvisited', steps')
    ∧ search_inv network0 s network' unvisited' order'
    ∧ di ∈ order'.
Proof.
  revert network unvisited li earlier last steps.
  induction fuel as [|fuel IH];
    intros network unvisited li earlier last steps Hinv Hli Hdi Hearlier Hfuel; [lia|].
  simpl. destruct (String.eqb_spec last d) as [->|Hne].
  - exists network, unvisited, (li :: earlier), steps.
    split; [done|]. split; [done|].
    rewrite Hli in Hdi. injection Hdi as ->. left.
  - assert (di ≠ li) as Hdl.
    { intros ->. apply Hne.
      destruct (get_node_Some _ _ _ Hli) as (n1 & H1 & <-).
      destruct (get_node_Some _ _ _ Hdi) as (n2 & H2 & <-). congruence. }
    assert (di ∉ li :: earlier) as Hdo by (by apply not_elem_of_cons).
    destruct (get_node_Some _ _ _ Hdi) as (dn & Hdn & Hdname).
    assert (d ∈ unvisited) as Hdu.
    { rewrite <- Hdname. by apply (inv_partition _ _ _ _ _ Hinv di dn Hdn). }
    destruct (search_inv_progress _ _ _ Hinv) as (m & network' & Hit).
    { intros ->. by apply elem_of_nil in Hdu. }
    rewrite Hit. simpl.
    destruct (search_inv_step _ _ _ _ _ _ Hinv Hit) as (mi & Hmi & _ & Hinv' & _).
    apply (IH _ _ mi (li :: earlier) m); try done.
    apply spath_iteration_Some in Hit as (Hmin & _).
    apply min_unvisited_Ok in Hmin as [Hin _].
    pose proof (discard_length_lt m unvisited Hin). lia.
Qed.

(** Initialise, first call, loop *)
Lemma spath_search_reaches fuel source d di :
  get_node network0 source = Some s →
  get_node network0 d = Some di →
  length (nodes network0) ≤ fuel →
  ∃ network' unvisited' order' steps',
    spath_search (completed_globals set_order) fuel network0 source d
    = Ok (Some d, network', unvisited', steps')
    ∧ search_inv network0 s network' unvisited' order'
    ∧ di ∈ order'.
Proof.
  intros Hs Hdi Hfuel. unfold spath_search, call_global. simpl.
  destruct (spath_initialise_progress _ _ _ Hs) as (network & unvisited & Hinit).
  rewrite Hinit. simpl.
  pose proof (search_inv_start _ _ _ _ _ Hwf Hs Hinit) as Hinv.
  pose proof (inv_count _ _ _ _ _ Hinv) as Hcount. simpl in Hcount.
  destruct (get_node_Some _ _ _ Hs) as (sn & Hsn & _).
  apply lookup_lt_Some in Hsn.
  destruct (search_inv_progress _ _ _ Hinv) as (m & network1 & Hit).
  { intros ->. simpl in Hcount. lia. }
  rewrite Hit. simpl.
  destruct (search_inv_step _ _ _ _ _ _ Hinv Hit) as (mi & Hmi & _ & Hinv1 & _).
  apply (search_loop_reaches _ _ _ mi [] m d di); try done.
  - apply not_elem_of_nil.
  - apply spath_iteration_Some in Hit as (Hmin & _).
    apply min_unvisited_Ok in Hmin as [Hin _].
    pose proof (discard_length_lt m unvisited Hin). lia.
Qed.
End Search.

(** ** The returned pair *)

Lemma spath_report_solved network0 s network unvisited order fuel last d di :
  search_inv network0 s network unvisited order →
  get_node network0 d = Some di →
  di ∈ order →
  length (nodes network0) ≤ fuel →
  ∃ p,
    spath_report fuel network (Some last) d
    = Ok (Some (tentative network di), Some p)
    ∧ (predecessor network di = None → p = [d]).
Proof.
  intros Hinv Hdi Hin Hfuel.
  pose proof (inv_shape _ _ _ _ _ Hinv) as Hshape.
  pose proof (inv_count _ _ _ _ _ Hinv) as Hcount.
  assert (∀ i, i ∈ order → is_Some (state_of network i)) as Hst.
  { intros i Hi. by apply (inv_init _ _ _ _ _ Hinv), (inv_range _ _ _ _ _ Hinv). }
  destruct (Hst di Hin) as [v Hv].
  unfold spath_report, spath_extract_path.
  rewrite (get_node_same _ _ d Hshape), Hdi.
  rewrite (proj2 (value_of_state _ _ _) Hv). unfold mbind at 1, result_bind at 1.
  destruct (follow_predecessors_chain _ _ (inv_chain _ _ _ _ _ Hinv) Hst di fuel [] Hin)
    as [l Hl]; [lia|].
  rewrite Hl. simpl. rewrite (tentative_state _ _ _ Hv).
  eexists. split; [done|].
  rewrite (predecessor_state _ _ _ Hv). intros Hp.
  rewrite (follow_predecessors_none _ _ _ _ _ Hv Hp) in Hl. by injection Hl as <-.
Qed.

(** The whole call, when source and destination both name nodes *)
Lemma spath_algorithm_solved network source destination s d fuel :
  wf_network network →
  nonneg_weights network →
  get_node network source = Some s →
  get_node network destination = Some d →
  length (nodes network) ≤ fuel →
  ∃ network' unvisited' order' p,
    spath_algorithm (completed_globals set_order) fuel network source destination
    = Ok (Some (tentative network' d), Some p)
    ∧ search_inv network s network' unvisited' order'
    ∧ d ∈ order'
    ∧ (predecessor network' d = None → p = [destination]).
Proof.
  intros Hwf Hnn Hs Hd Hfuel.
  destruct (spath_search_reaches network s Hwf Hnn fuel source destination d Hs Hd Hfuel)
    as (network' & unvisited' & order' & steps' & Hsearch & Hinv & Hin).
  destruct (spath_report_solved _ _ _ _ _ fuel destination destination d Hinv Hd Hin Hfuel)
    as (p & Hreport & Hp).
  exists network', unvisited', order', p. split; [|done].
  unfold spath_algorithm. rewrite Hsearch. simpl. exact Hreport.
Qed.

Lemma search_state_inv network0 source network unvisited :
  wf_network network0 →
  nonneg_weights network0 →
  search_state set_order network0 source network unvisited →
  ∃ s order, get_node network0 source = Some s
             ∧ search_inv network0 s network unvisited order.
Proof.
  intros Hwf Hnn Hst.
  induction Hst as [network unvisited Hinit
                   | network unvisited m network' unvisited' _ IH Hit].
  - pose proof Hinit as Hinit'.
    apply spath_initialise_Ok in Hinit' as (s & Hs & _).
    exists s, []. split; [done|]. by eapply search_inv_start.
  - destruct IH as (s & order & Hs & Hinv).
    destruct (search_inv_step _ _ Hwf Hnn _ _ _ _ _ _ Hinv Hit) as (mi & _ & _ & Hinv' & _).
    exists s, (mi :: order). done.
Qed.

(** ** Source equal to destination *)

(** The first call of a search solves the source. *)
Lemma first_iteration_solves_source network0 source s network unvisited
    m network' unvisited' :
  get_node network0 source = Some s →
  spath_initialise set_order network0 source = Ok (network, unvisited) →
  spath_iteration network unvisited = Ok (Some m, network', unvisited') →
  m = source ∧ get_node network m = Some s.
Proof.
  intros Hs Hinit Hit.
  apply spath_initialise_Ok in Hinit
    as (s' & Hs' & Hlt & Hshape & -> & Hsrc & Hother).
  rewrite Hs in Hs'. injection Hs' as <-.
  apply spath_iteration_Some in Hit
    as (Hmin & _ & mi & node & Hmi & Hnode & Hname & _).
  apply min_unvisited_Ok in Hmin as (_ & vm & Hvm & Hall).
  destruct (get_node_Some _ _ _ Hs) as (sn & Hsn & Hsname).
  destruct (Hall source) as (v & Hv & Hle).
  { apply unvisited_elem, list_elem_of_fmap. exists sn.
    split; [done | by eapply list_elem_of_lookup_2]. }
  rewrite (get_node_same _ _ source Hshape), Hs in Hv.
  apply value_of_state in Hv. rewrite Hsrc in Hv. injection Hv as <-.
  rewrite Hmi in Hvm. apply value_of_state in Hvm.
  assert (mi = s) as ->.
  { destruct (decide (mi = s)) as [|Hne]; [done|]. exfalso.
    rewrite (Hother mi Hne) in Hvm.
    - injection Hvm as <-. simpl in Hle. dist_cases.
    - rewrite <- (skeleton_length _ _ Hshape). by eapply lookup_lt_Some. }
  split; [|done].
  destruct (skeleton_lookup _ _ _ _ Hshape Hnode) as (node0 & Hnode0 & Hname0 & _).
  rewrite Hsn in Hnode0. injection Hnode0 as <-. congruence.
Qed.

(** ** A name that is not in the network *)

Section Safe.
Variable network0 : Network.
Hypothesis Hwf : wf_network network0.

Lemma search_safe_start source network unvisited :
  spath_initialise set_order network0 source = Ok (network, unvisited) →
  search_safe network0 network unvisited.
Proof.
  intros Hinit.
  apply spath_initialise_Ok in Hinit as (s & Hs & Hlt & Hshape & -> & Hsrc & Hother).
  split; [done|]. split.
  - intros i Hi. rewrite (skeleton_length _ _ Hshape) in Hi.
    destruct (decide (i = s)) as [->|Hne]; [eauto|].
    rewrite (Hother i Hne Hi). eauto.
  - intros nm Hnm. rewrite unvisited_elem in Hnm. by apply find_node_elem.
Qed.

Lemma search_safe_arcs network unvisited i node a :
  search_safe network0 network unvisited →
  nodes network !! i = Some node → a ∈ arcs_out node →
  from_node a = i ∧ to_node a < length (nodes network).
Proof.
  intros (Hshape & _ & _) Hnode Ha.
  destruct (skeleton_lookup _ _ _ _ Hshape Hnode) as (node0 & Hnode0 & _ & Hout).
  rewrite <- Hout in Ha.
  destruct (wf_arcs_out _ Hwf _ _ _ Hnode0 Ha) as (? & ? & _).
  by rewrite (skeleton_length _ _ Hshape).
Qed.

Lemma search_safe_progress network unvisited :
  search_safe network0 network unvisited →
  unvisited ≠ [] →
  ∃ m network',
    spath_iteration network unvisited = Ok (Some m, network', discard m unvisited).
Proof.
  intros Hsafe Hne. pose proof Hsafe as (Hshape & Hinit & Hnames).
  apply spath_iteration_progress; [done| |done|].
  - intros i node a Hnode Ha.
    destruct (search_safe_arcs _ _ _ _ _ Hsafe Hnode Ha) as [-> ?].
    split; [by eapply lookup_lt_Some | done].
  - intros nm Hnm. rewrite (get_node_same _ _ nm Hshape). auto.
Qed.

Lemma search_safe_step network unvisited m network' unvisited' :
  search_safe network0 network unvisited →
  spath_iteration network unvisited = Ok (Some m, network', unvisited') →
  search_safe network0 network' unvisited'
  ∧ is_Some (get_node network0 m)
  ∧ length unvisited' < length unvisited.
Proof.
  intros Hsafe Hit. pose proof Hsafe as (Hshape & Hinit & Hnames).
  apply spath_iteration_Some in Hit
    as (Hmin & -> & mi & node & Hmi & Hnode & _ & Hrelax).
  apply min_unvisited_Ok in Hmin as [Hin _].
  assert (relaxed mi m (arcs_out node) network network') as Hrel.
  { apply relax_arcs_relaxed; [|done]. intros a Ha.
    by destruct (search_safe_arcs _ _ _ _ _ Hsafe Hnode Ha). }
  split; [|split; [auto | by apply discard_length_lt]].
  split; [by rewrite (relaxed_skeleton _ _ _ _ _ Hrel)|].
  split; [by eapply relaxed_initialised|].
  intros nm Hnm. apply elem_of_discard in Hnm as [Hnm _]. auto.
Qed.

(** The loop against a destination that names no node: it runs until the
    unvisited set is empty and ends with None. *)
Lemma search_loop_exhausts fuel network unvisited last d steps :
  search_safe network0 network unvisited →
  get_node network0 d = None →
  is_Some (get_node network0 last) →
  length unvisited < fuel →
  ∃ network' steps',
    search_loop fuel network unvisited (Some last) d steps
    = Ok (None, network', [], steps').
Proof.
  revert network unvisited last steps.
  induction fuel as [|fuel IH];
    intros network unvisited last steps Hsafe Hd Hlast Hfuel; [lia|].
  simpl. destruct (String.eqb_spec last d) as [->|Hne].
  { rewrite Hd in Hlast. by destruct Hlast. }
  destruct unvisited as [|x rest].
  - rewrite spath_iteration_nil. simpl. rewrite search_loop_None. eauto.
  - destruct (search_safe_progress _ _ Hsafe) as (m & network' & Hit); [done|].
    rewrite Hit. simpl.
    destruct (search_safe_step _ _ _ _ _ Hsafe Hit) as (Hsafe' & Hm & Hlen).
    apply IH; try done. lia.
Qed.

Lemma spath_algorithm_exhausts fuel source s d :
  get_node network0 source = Some s →
  get_node network0 d = None →
  length (nodes network0) ≤ fuel →
  spath_algorithm (completed_globals set_order) fuel network0 source d = Ok (None, None).
Proof.
  intros Hs Hd Hfuel.
  destruct (spath_initialise_progress _ _ _ Hs) as (network & unvisited & Hinit).
  pose proof (search_safe_start _ _ _ Hinit) as Hsafe.
  assert (length unvisited ≤ length (nodes network0)) as Hlen.
  { apply spath_initialise_Ok in Hinit as (_ & _ & _ & _ & -> & _).
    etrans; [apply unvisited_length|]. by rewrite length_fmap. }
  unfold spath_algorithm. rewrite spath_search_completed, Hinit.
  cbn [mbind result_bind].
  destruct (decide (unvisited = [])) as [->|Hne].
  - rewrite spath_iteration_nil. cbn [mbind result_bind].
    by rewrite search_loop_None.
  - destruct (search_safe_progress _ _ Hsafe Hne) as (m & network' & Hit).
    rewrite Hit. cbn [mbind result_bind].
    destruct (search_safe_step _ _ _ _ _ Hsafe Hit) as (Hsafe' & Hm & Hlt).
    destruct (search_loop_exhausts fuel network' (discard m unvisited) m d
                (solved_count (Some m)) Hsafe' Hd Hm) as (network'' & steps' & Hloop);
      [lia|].
    by rewrite Hloop.
Qed.
End Safe.

Lemma spath_algorithm_no_source fuel network source destination :
  get_node network source = None →
  spath_algorithm (completed_globals set_order) fuel network source destination
  = Raise AttributeError.
Proof.
  intros Hs. unfold spath_algorithm, spath_search, call_global. simpl.
  by rewrite (spath_initialise_unknown _ _ Hs).
Qed.

(** ** Termination *)

Lemma spath_search_bound network source destination fuel :
  length (nodes network) ≤ fuel →
  match spath_search (completed_globals set_order) fuel network source destination with
  | Ok (_, _, _, steps) => steps ≤ length (nodes network)
  | Raise _ => True
  | OutOfFuel => False
  end.
Proof.
  intros Hfuel. rewrite spath_search_completed.
  destruct (spath_initialise set_order network source) as [[network0 unvisited]|e|] eqn:Hinit;
    cbn [mbind result_bind]; [|done|].
  2: { unfold spath_initialise in Hinit. cbv zeta in Hinit.
       by destruct (get_node _ source). }
  assert (length unvisited ≤ length (nodes network)) as Hlen.
  { apply spath_initialise_Ok in Hinit as (_ & _ & _ & _ & -> & _).
    etrans; [apply unvisited_length|]. by rewrite length_fmap. }
  pose proof (spath_iteration_no_timeout network0 unvisited) as Hnt.
  destruct (spath_iteration network0 unvisited)
    as [[[solved network1] unvisited1]|e|] eqn:Hit; cbn [mbind result_bind];
    [|done|done].
  destruct solved as [m|].
  - apply spath_iteration_Some in Hit as (Hmin & -> & _).
    apply min_unvisited_Ok in Hmin as [Hin _].
    pose proof (discard_length_lt m unvisited Hin) as Hlt.
    pose proof (search_loop_bound fuel network1 (discard m unvisited) (Some m)
                  destination (solved_count (Some m))) as Hb.
    destruct (search_loop fuel network1 (discard m unvisited) (Some m) destination
                (solved_count (Some m))) as [[[[? ?] U'] steps']|e|];
      [|done|]; simpl in Hb; lia.
  - rewrite search_loop_None. simpl. lia.
Qed.

End SetOrder.

(** ** A negative arc from a node to itself *)

Lemma insertion_order_ok : set_order_ok insertion_order.
Proof. intros l. reflexivity. Qed.

(** The network with one node and one arc of weight -1 from it to itself:
    the first call gives the node itself as its predecessor, and following
    predecessors never ends. *)
Lemma negative_loop_follow fuel acc :
  follow_predecessors fuel negative_loop_solved (Some 0) acc = OutOfFuel.
Proof.
  revert acc. induction fuel as [|fuel IH]; intros acc; [done|].
  rewrite follow_predecessors_unfold. simpl. apply IH.
Qed.

Lemma negative_loop_search fuel :
  spath_search (completed_globals insertion_order) fuel negative_loop "s" "s"
  = Ok (Some "s", negative_loop_solved, [], 1).
Proof. destruct fuel; reflexivity. Qed.

Lemma negative_loop_diverges fuel :
  spath_algorithm (completed_globals insertion_order) fuel negative_loop "s" "s"
  = OutOfFuel.
Proof.
  assert (get_node negative_loop_solved "s" = Some 0) as Hg by reflexivity.
  assert (value_of negative_loop_solved (Some 0) = Ok (Fin (-1), Some "s"))
    as Hv by reflexivity.
  unfold spath_algorithm. rewrite negative_loop_search.
  unfold mbind, result_bind, spath_report, spath_extract_path.
  by rewrite Hg, Hv, negative_loop_follow.
Qed.

(** * The claims *)





(** C3 (what the code does). When the unvisited set is empty the call returns
    None and changes nothing.  When it is not empty and every unvisited node
    is at distance [Inf], the call does not return None: it returns the name
    [min] picks, removes that name from the unvisited set, and leaves every
    node's search state as it was. *)
Theorem spath_iteration_solves_unreached network unvisited :
  wf_network network →
  initialised network →
  unvisited ≠ [] →
  (∀ nm, nm ∈ unvisited → is_Some (get_node network nm)) →
  (∀ nm, nm ∈ unvisited → key_of network nm = Inf) →
  spath_iteration network [] = Ok (None, network, [])
  ∧ ∃ m,
      m ∈ unvisited
      ∧ spath_iteration network unvisited
        = Ok (Some m, network, discard m unvisited)
      ∧ length (discard m unvisited) < length unvisited.
Proof.
  intros Hwf Hinit Hne Hnames Hinf. split; [done|].
  destruct (spath_iteration_progress network unvisited Hinit) as (m & network' & Hit);
    [|done|done|].
  { intros i node a Hnode Ha.
    destruct (wf_arcs_out _ Hwf _ _ _ Hnode Ha) as (-> & ? & _).
    split; [by eapply lookup_lt_Some | done]. }
  pose proof Hit as Hit'.
  apply spath_iteration_Some in Hit'
    as (Hmin & _ & mi & node & Hmi & Hnode & _ & Hrelax).
  apply min_unvisited_Ok in Hmin as (Hin & _).
  exists m. split; [done|]. split; [|by apply discard_length_lt].
  rewrite Hit. do 3 f_equal.
  eapply (relaxed_Inf mi m (arcs_out node)).
  - apply relax_arcs_relaxed; [|done].
    intros a Ha. by destruct (wf_arcs_out _ Hwf _ _ _ Hnode Ha).
  - specialize (Hinf m Hin). unfold key_of in Hinf. rewrite Hmi in Hinf.
    destruct (Hinit mi) as [v Hv]; [by eapply lookup_lt_Some|].
    rewrite (proj2 (value_of_state _ _ _) Hv) in Hinf.
    by rewrite (tentative_state _ _ _ Hv).
Qed.

Lemma spath_iteration_solves_unreached_witness :
  wf_network (fst (started two_islands "A"))
  ∧ key_of (fst (started two_islands "A")) "B" = Inf
  ∧ spath_iteration (fst (started two_islands "A")) [] 
    = Ok (None, fst (started two_islands "A"), [])
  ∧ ∃ m,
      m ∈ ["B"]
      ∧ spath_iteration (fst (started two_islands "A")) ["B"]
        = Ok (Some m, fst (started two_islands "A"), discard m ["B"])
      ∧ length (discard m ["B"]) < length ["B"].
Proof.
  split; [reflexivity|]. split; [reflexivity|].
  apply (spath_iteration_solves_unreached (fst (started two_islands "A")) ["B"]).
  - reflexivity.
  - intros i Hi. simpl in Hi.
    destruct i as [|[|i]]; [by eexists | by eexists | lia].
  - discriminate.
  - intros nm Hnm. apply list_elem_of_singleton in Hnm as ->. by eexists.
  - intros nm Hnm. apply list_elem_of_singleton in Hnm as ->. reflexivity.
Defined.

(** C4. In a search over a well-formed network with non-negative arc weights,
    a call of [spath_iteration] raises no node's tentative distance, and
    leaves the tentative distance and the predecessor of every node whose name
    is no longer in the unvisited set exactly as they were. *)
Theorem search_distances_settle set_order network0 source network unvisited
    solved network' unvisited' :
  set_order_ok set_order →
  wf_network network0 →
  nonneg_weights network0 →
  search_state set_order network0 source network unvisited →
  spath_iteration network unvisited = Ok (solved, network', unvisited') →
  (∀ i, dist_le (tentative network' i) (tentative network i))
  ∧ (∀ i node,
       nodes network !! i = Some node → name node ∉ unvisited →
       tentative network' i = tentative network i
       ∧ predecessor network' i = predecessor network i).
Proof.
  intros Hperm Hwf Hnn Hst Hit.
  destruct (search_state_inv set_order Hperm _ _ _ _ Hwf Hnn Hst)
    as (s & order & Hs & Hinv).
  destruct solved as [m|].
  - destruct (search_inv_step _ _ Hwf Hnn _ _ _ _ _ _ Hinv Hit)
      as (mi & _ & _ & _ & Hmono & Hkeep).
    split; [done|]. intros i node Hnode Hout.
    pose proof (inv_shape _ _ _ _ _ Hinv) as Hshape.
    destruct (skeleton_lookup _ _ _ _ Hshape Hnode) as (node0 & Hnode0 & Hname & _).
    assert (i ∈ order) as Hi.
    { destruct (decide (i ∈ order)) as [|Hno]; [done|].
      exfalso. apply Hout. rewrite <- Hname.
      by apply (inv_partition _ _ _ _ _ Hinv i node0 Hnode0). }
    unfold tentative, predecessor. rewrite Hkeep by (by right). done.
  - apply spath_iteration_None in Hit as (_ & -> & _).
    split; [intros; apply dist_le_refl | done].
Qed.

Lemma search_distances_settle_witness :
  set_order_ok insertion_order
  ∧ wf_network abcd ∧ nonneg_weights abcd
  ∧ search_state insertion_order abcd "A"
      (fst (started abcd "A")) (snd (started abcd "A"))
  ∧ (∀ i, dist_le
            (tentative (set_value (set_value (fst (started abcd "A")) 1 (Fin 1, Some "A"))
                          2 (Fin 4, Some "A")) i)
            (tentative (fst (started abcd "A")) i))
  ∧ (∀ i node,
       nodes (fst (started abcd "A")) !! i = Some node →
       name node ∉ snd (started abcd "A") →
       tentative (set_value (set_value (fst (started abcd "A")) 1 (Fin 1, Some "A"))
                    2 (Fin 4, Some "A")) i
       = tentative (fst (started abcd "A")) i
       ∧ predecessor (set_value (set_value (fst (started abcd "A")) 1 (Fin 1, Some "A"))
                        2 (Fin 4, Some "A")) i
         = predecessor (fst (started abcd "A")) i).
Proof.
  assert (search_state insertion_order abcd "A"
            (fst (started abcd "A")) (snd (started abcd "A")))
    as Hst by (apply search_start; reflexivity).
  split; [exact insertion_order_ok|].
  split; [reflexivity|]. split; [reflexivity|]. split; [exact Hst|].
  apply (search_distances_settle insertion_order abcd "A" (fst (started abcd "A"))
           (snd (started abcd "A")) (Some "A") _ ["B"; "C"; "D"]);
    [exact insertion_order_ok | reflexivity | reflexivity | exact Hst | reflexivity].
Defined.

(** C5 (amended). On a well-formed network whose node [source] has no arc of
    negative weight back to itself, [spath_algorithm] called with source and
    destination both [source] returns distance 0 and the path [[source]]. *)
Theorem spath_algorithm_source_is_destination set_order network source s node fuel :
  set_order_ok set_order →
  wf_network network →
  get_node network source = Some s →
  nodes network !! s = Some node →
  no_negative_self_loop node s = true →
  spath_algorithm (completed_globals set_order) fuel network source source
  = Ok (Some (Fin 0), Some [source]).
Proof.
  intros Hperm Hwf Hs Hnode Hloop.
  destruct (spath_initialise_progress set_order _ _ _ Hs)
    as (network1 & unvisited & Hinit).
  pose proof (spath_initialise_Ok _ _ _ _ _ Hinit)
    as (s' & Hs' & Hlt & Hshape & HU & Hsrc & Hother).
  rewrite Hs in Hs'. injection Hs' as <-.
  assert (initialised network1) as Hinit1.
  { intros i Hi. rewrite (skeleton_length _ _ Hshape) in Hi.
    destruct (decide (i = s)) as [->|Hne]; [eauto|].
    rewrite (Hother i Hne Hi). eauto. }
  assert (∀ i nd a, nodes network1 !! i = Some nd → a ∈ arcs_out nd →
            from_node a = i ∧ to_node a < length (nodes network1)
            ∧ (to_node a = s → i = s → (0 ≤ weight a)%Z)) as Harcs.
  { intros i nd a Hnd Ha.
    destruct (skeleton_lookup _ _ _ _ Hshape Hnd) as (nd0 & Hnd0 & _ & Hout).
    rewrite <- Hout in Ha.
    destruct (wf_arcs_out _ Hwf _ _ _ Hnd0 Ha) as (? & ? & _).
    rewrite (skeleton_length _ _ Hshape). split; [done|]. split; [done|].
    intros Hto ->. rewrite Hnode in Hnd0. injection Hnd0 as <-.
    by eapply no_negative_self_loop_weight. }
  destruct (spath_iteration_progress network1 unvisited Hinit1)
    as (m & network2 & Hit).
  { intros i nd a Hnd Ha. destruct (Harcs i nd a Hnd Ha) as (-> & ? & _).
    split; [by eapply lookup_lt_Some | done]. }
  { rewrite HU. intros Hnil.
    assert (source ∈ set_order (remove_dups (name <$> nodes network))) as Hin.
    { destruct (get_node_Some _ _ _ Hs) as (sn & Hsn & <-).
      apply (unvisited_elem set_order Hperm), list_elem_of_fmap. exists sn.
      split; [done | by eapply list_elem_of_lookup_2]. }
    rewrite Hnil in Hin. by apply elem_of_nil in Hin. }
  { intros nm Hnm. rewrite HU, (unvisited_elem set_order Hperm) in Hnm.
    rewrite (get_node_same _ _ nm Hshape). by apply find_node_elem. }
  destruct (first_iteration_solves_source set_order Hperm _ _ _ _ _ _ _ _ Hs Hinit Hit)
    as [-> Hm].
  pose proof Hit as Hit'.
  apply spath_iteration_Some in Hit'
    as (_ & _ & mi & nd & Hmi & Hnd & _ & Hrelax).
  rewrite Hm in Hmi. injection Hmi as <-.
  assert (relaxed s source (arcs_out nd) network1 network2) as Hrel.
  { apply relax_arcs_relaxed; [|done]. intros a Ha.
    by destruct (Harcs s nd a Hnd Ha). }
  destruct (relaxed_stable s source _ _ _ (Fin 0) Hrel) as (Hself & _ & _).
  { by rewrite (tentative_state _ _ _ Hsrc). }
  { intros a Ha Hto. destruct (Harcs s nd a Hnd Ha) as (_ & _ & Hw).
    specialize (Hw Hto eq_refl). simpl. dist_cases. }
  rewrite Hsrc in Hself.
  pose proof (relaxed_skeleton s source _ _ _ Hrel) as Hshape2.
  unfold spath_algorithm. rewrite spath_search_completed, Hinit.
  cbn [mbind result_bind]. rewrite Hit. cbn [mbind result_bind].
  rewrite search_loop_found. cbn [mbind result_bind].
  unfold spath_report, spath_extract_path.
  rewrite (get_node_same _ network1 source Hshape2), Hm.
  rewrite (proj2 (value_of_state _ _ _) Hself). unfold mbind at 1, result_bind at 1.
  by rewrite (follow_predecessors_none fuel network2 s [] _ Hself).
Qed.

Lemma spath_algorithm_source_is_destination_witness :
  set_order_ok insertion_order
  ∧ wf_network abcd
  ∧ get_node abcd "A" = Some 0
  ∧ spath_algorithm (completed_globals insertion_order) 0 abcd "A" "A"
    = Ok (Some (Fin 0), Some ["A"]).
Proof.
  split; [exact insertion_order_ok|].
  split; [reflexivity|]. split; [reflexivity|].
  refine (spath_algorithm_source_is_destination insertion_order abcd "A" 0 _ 0
            insertion_order_ok _ _ _ _);
    reflexivity.
Defined.

(** C5 as stated fails: [negative_loop] is a well-formed network containing
    the node s, and the call with source and destination s returns nothing. *)
Lemma spath_algorithm_source_is_destination_counterexample :
  ¬ (∀ network source,
       wf_network network →
       is_Some (get_node network source) →
       ∃ fuel,
         spath_algorithm (completed_globals insertion_order) fuel network source source
         = Ok (Some (Fin 0), Some [source])).
Proof.
  intros H. destruct (H negative_loop "s") as [fuel Hfuel].
  - reflexivity.
  - by eexists.
  - by rewrite negative_loop_diverges in Hfuel.
Qed.

(** C6 (what the code does). On a well-formed network with non-negative arc
    weights, when source and destination name nodes and no directed path
    leads from the one to the other, [spath_algorithm] does not return
    [(None, None)]: it returns the distance [Inf] and the path holding the
    destination alone. *)
Theorem spath_algorithm_unreachable set_order network source destination s d fuel :
  set_order_ok set_order →
  wf_network network →
  nonneg_weights network →
  get_node network source = Some s →
  get_node network destination = Some d →
  (∀ W, ¬ path network s d W) →
  length (nodes network) ≤ fuel →
  spath_algorithm (completed_globals set_order) fuel network source destination
  = Ok (Some Inf, Some [destination]).
Proof.
  intros Hperm Hwf Hnn Hs Hd Hnone Hfuel.
  destruct (spath_algorithm_solved set_order Hperm _ _ _ _ _ _ Hwf Hnn Hs Hd Hfuel)
    as (network' & unvisited' & order' & p & Hrun & Hinv & Hin & Hp).
  assert (tentative network' d = Inf) as Hinf.
  { destruct (tentative network' d) as [z|] eqn:Hz; [|done].
    exfalso. apply (Hnone z). by apply (inv_reach _ _ _ _ _ Hinv). }
  rewrite Hrun, Hinf, Hp; [done|].
  by apply (inv_unreached _ _ _ _ _ Hinv).
Qed.

Lemma spath_algorithm_unreachable_witness :
  set_order_ok insertion_order
  ∧ wf_network two_islands ∧ nonneg_weights two_islands
  ∧ get_node two_islands "A" = Some 0 ∧ get_node two_islands "B" = Some 1
  ∧ (∀ W, ¬ path two_islands 0 1 W)
  ∧ spath_algorithm (completed_globals insertion_order) 2 two_islands "A" "B"
    = Ok (Some Inf, Some ["B"]).
Proof.
  assert (∀ W, ¬ path two_islands 0 1 W) as Hnone.
  { intros W Hp. inversion Hp as [|v a W' _ Ha _ Hto]. by apply elem_of_nil in Ha. }
  assert (length (nodes two_islands) ≤ 2) as Hlen by (simpl; lia).
  split; [exact insertion_order_ok|].
  split; [reflexivity|]. split; [reflexivity|].
  split; [reflexivity|]. split; [reflexivity|]. split; [exact Hnone|].
  apply (spath_algorithm_unreachable insertion_order two_islands "A" "B" 0 1 2);
    [exact insertion_order_ok | reflexivity | reflexivity | reflexivity
    | reflexivity | exact Hnone | exact Hlen].
Defined.

(** C7 (amended). The code has no UnknownNodeError.  On a well-formed network,
    a call whose source names no node raises AttributeError in the
    initialiser, and a call whose source names a node and whose destination
    names none solves every node and returns [(None, None)]. *)
Theorem spath_algorithm_unknown_node set_order network source destination fuel :
  set_order_ok set_order →
  wf_network network →
  length (nodes network) ≤ fuel →
  (get_node network source = None →
   spath_algorithm (completed_globals set_order) fuel network source destination
   = Raise AttributeError)
  ∧ (is_Some (get_node network source) →
     get_node network destination = None →
     spath_algorithm (completed_globals set_order) fuel network source destination
     = Ok (None, None)).
Proof.
  intros Hperm Hwf Hfuel. split.
  - apply spath_algorithm_no_source.
  - intros [s Hs] Hd. by eapply spath_algorithm_exhausts.
Qed.

Lemma spath_algorithm_unknown_node_witness :
  set_order_ok insertion_order
  ∧ wf_network two_islands
  ∧ length (nodes two_islands) ≤ 2
  ∧ (get_node two_islands "A" = None →
     spath_algorithm (completed_globals insertion_order) 2 two_islands "A" "Z"
     = Raise AttributeError)
  ∧ (is_Some (get_node two_islands "A") →
     get_node two_islands "Z" = None →
     spath_algorithm (completed_globals insertion_order) 2 two_islands "A" "Z"
     = Ok (None, None)).
Proof.
  assert (length (nodes two_islands) ≤ 2) as Hlen by (simpl; lia).
  split; [exact insertion_order_ok|].
  split; [reflexivity|]. split; [exact Hlen|].
  apply (spath_algorithm_unknown_node insertion_order two_islands "A" "Z" 2);
    [exact insertion_order_ok | reflexivity | exact Hlen].
Defined.

(** C7 as stated fails: Z names no node of [two_islands], and the call with
    destination Z raises nothing, whatever the budget; it returns
    [(None, None)]. *)
Lemma spath_algorithm_unknown_node_counterexample :
  get_node two_islands "Z" = None
  ∧ spath_algorithm (completed_globals insertion_order) 2 two_islands "A" "Z"
    = Ok (None, None)
  ∧ ∀ fuel e,
      spath_algorithm (completed_globals insertion_order) fuel two_islands "A" "Z"
      ≠ Raise e.
Proof.
  split; [reflexivity|]. split; [reflexivity|].
  intros fuel e. destruct fuel as [|[|[|fuel]]]; vm_compute; discriminate.
Qed.

(** C8 (amended). For every network, the search loop of a call ends, after at
    most as many solving calls of [spath_iteration] as the network has nodes:
    the unvisited set starts as the set of all node names and each solving
    call removes exactly one name.  The call as a whole ends when the network
    is well-formed and its arc weights are non-negative. *)
Theorem spath_search_terminates set_order network source destination fuel :
  set_order_ok set_order →
  length (nodes network) ≤ fuel →
  spath_search (completed_globals set_order) fuel network source destination
  ≠ OutOfFuel
  ∧ (∀ solved network' unvisited' steps,
       spath_search (completed_globals set_order) fuel network source destination
       = Ok (solved, network', unvisited', steps) →
       steps ≤ length (nodes network))
  ∧ (∀ network0 unvisited,
       spath_initialise set_order network source = Ok (network0, unvisited) →
       NoDup unvisited ∧ ∀ nm, nm ∈ unvisited ↔ nm ∈ name <$> nodes network)
  ∧ (∀ network1 unvisited1 m network2 unvisited2,
       NoDup unvisited1 →
       spath_iteration network1 unvisited1 = Ok (Some m, network2, unvisited2) →
       NoDup unvisited2 ∧ S (length unvisited2) = length unvisited1)
  ∧ (wf_network network → nonneg_weights network →
     spath_algorithm (completed_globals set_order) fuel network source destination
     ≠ OutOfFuel).
Proof.
  intros Hperm Hfuel.
  pose proof (spath_search_bound set_order Hperm network source destination fuel Hfuel)
    as Hb.
  split; [|split; [|split; [|split]]].
  - intros Heq. by rewrite Heq in Hb.
  - intros solved network' unvisited' steps Heq. by rewrite Heq in Hb.
  - intros network0 unvisited Hinit.
    apply spath_initialise_Ok in Hinit as (_ & _ & _ & _ & -> & _).
    split; [by apply unvisited_NoDup | by apply unvisited_elem].
  - intros network1 unvisited1 m network2 unvisited2 Hnd Hit.
    apply spath_iteration_Some in Hit as (Hmin & -> & _).
    apply min_unvisited_Ok in Hmin as [Hin _].
    split; [by apply NoDup_discard | by apply discard_length_NoDup].
  - intros Hwf Hnn.
    destruct (get_node network source) as [s|] eqn:Hs.
    + destruct (get_node network destination) as [d|] eqn:Hd.
      * destruct (spath_algorithm_solved set_order Hperm _ _ _ _ _ _ Hwf Hnn Hs Hd Hfuel)
          as (? & ? & ? & ? & -> & _). done.
      * by rewrite (spath_algorithm_exhausts set_order Hperm _ Hwf fuel source s destination).
    + by rewrite spath_algorithm_no_source.
Qed.

Lemma spath_search_terminates_witness :
  set_order_ok insertion_order
  ∧ length (nodes abcd) ≤ 4
  ∧ spath_search (completed_globals insertion_order) 4 abcd "A" "D" ≠ OutOfFuel
  ∧ (∀ solved network' unvisited' steps,
       spath_search (completed_globals insertion_order) 4 abcd "A" "D"
       = Ok (solved, network', unvisited', steps) →
       steps ≤ length (nodes abcd))
  ∧ (∀ network0 unvisited,
       spath_initialise insertion_order abcd "A" = Ok (network0, unvisited) →
       NoDup unvisited ∧ ∀ nm, nm ∈ unvisited ↔ nm ∈ name <$> nodes abcd)
  ∧ (∀ network1 unvisited1 m network2 unvisited2,
       NoDup unvisited1 →
       spath_iteration network1 unvisited1 = Ok (Some m, network2, unvisited2) →
       NoDup unvisited2 ∧ S (length unvisited2) = length unvisited1)
  ∧ (wf_network abcd → nonneg_weights abcd →
     spath_algorithm (completed_globals insertion_order) 4 abcd "A" "D"
     ≠ OutOfFuel).
Proof.
  assert (length (nodes abcd) ≤ 4) as Hlen by (simpl; lia).
  split; [exact insertion_order_ok|]. split; [exact Hlen|].
  apply (spath_search_terminates insertion_order abcd "A" "D" 4
           insertion_order_ok Hlen).
Defined.

(** C8 as stated fails: on [negative_loop] the call with source and
    destination s is still running when any budget is used up. *)
Lemma spath_algorithm_terminates_counterexample :
  ¬ (∀ network source destination,
       ∃ fuel,
         spath_algorithm (completed_globals insertion_order) fuel
           network source destination
         ≠ OutOfFuel).
Proof.
  intros H. destruct (H negative_loop "s" "s") as [fuel Hfuel].
  apply Hfuel, negative_loop_diverges.
Qed.

(** C9. The source file binds no global named [spath_initialise], so every
    call of [spath_algorithm] in the module as written raises NameError, and
    it does so in the first statement, before any call of [spath_iteration]. *)
Theorem spath_algorithm_name_error :
  resolve source_globals "spath_initialise" = None
  ∧ ∀ fuel network source destination,
      spath_search source_globals fuel network source destination
      = Raise NameError
      ∧ spath_algorithm source_globals fuel network source destination
        = Raise NameError.
Proof. split; [reflexivity|]. intros. split; reflexivity. Qed.

(** C10. When the destination names a node whose recorded predecessor is
    None, [spath_extract_path] returns the one-element list holding the
    destination name, whatever its distance and whether or not it was solved. *)
Theorem spath_extract_path_no_predecessor fuel network destination d x :
  get_node network destination = Some d →
  state_of network d = Some (x, None) →
  spath_extract_path fuel network destination = Ok [destination].
Proof.
  intros Hd Hv. unfold spath_extract_path. rewrite Hd.
  by rewrite (follow_predecessors_none fuel network d [] _ Hv).
Qed.

Lemma spath_extract_path_no_predecessor_witness :
  get_node (fst (started abcd "A")) "D" = Some 3
  ∧ state_of (fst (started abcd "A")) 3 = Some (Inf, None)
  ∧ spath_extract_path 0 (fst (started abcd "A")) "D" = Ok ["D"].
Proof.
  split; [reflexivity|]. split; [reflexivity|].
  apply (spath_extract_path_no_predecessor 0 (fst (started abcd "A")) "D" 3 Inf);
    reflexivity.
Defined.

(** * Further properties *)

(** ** The network interface *)

Lemma find_node_first nm l i :
  find_node nm l = Some i →
  ∀ j node, j < i → l !! j = Some node → name node ≠ nm.
Proof.
  revert i. induction l as [|x l IH]; intros i Hi j node Hj Hnode; [done|].
  simpl in Hi. destruct (String.eqb_spec (name x) nm) as [Heq|Hne].
  - injection Hi as <-. lia.
  - destruct (find_node nm l) as [k|] eqn:Hk; [|done].
    injection Hi as <-. destruct j as [|j]; simpl in Hnode.
    + by injection Hnode as <-.
    + apply (IH k eq_refl j); [lia | done].
Qed.

Lemma find_node_app nm l k :
  find_node nm (l ++ k)
  = match find_node nm l with
    | Some i => Some i
    | None => (λ i, length l + i) <$> find_node nm k
    end.
Proof.
  induction l as [|x l IH]; simpl.
  - by destruct (find_node nm k).
  - destruct (String.eqb (name x) nm); [done|]. rewrite IH.
    destruct (find_node nm l); [done|]. by destruct (find_node nm k).
Qed.

(** X1. After [add_node(nm, v)], a name that [get_node] found before is found
    at the same node, also when it is [nm] itself: a second node of the same
    name is stored and never returned.  A name not found before is found only
    if it is [nm], at the new node, which sits last, holds [v] and has no
    arcs; the nodes already there are as they were. *)
Theorem get_node_add_node network nm v x :
  get_node (add_node network nm v) x
  = match get_node network x with
    | Some i => Some i
    | None => if decide (x = nm) then Some (length (nodes network)) else None
    end
  ∧ nodes (add_node network nm v) !! length (nodes network)
    = Some (mkNode nm v [] [])
  ∧ length (nodes (add_node network nm v)) = S (length (nodes network))
  ∧ ∀ i, i < length (nodes network) →
         nodes (add_node network nm v) !! i = nodes network !! i.
Proof.
  unfold get_node, add_node. simpl. split; [|split; [|split]].
  - rewrite find_node_app. destruct (find_node x (nodes network)); [done|].
    simpl. destruct (String.eqb_spec nm x) as [->|Hne].
    + rewrite decide_True by done. simpl. f_equal. lia.
    + by rewrite decide_False by congruence.
  - by apply list_lookup_middle.
  - rewrite length_app. simpl. lia.
  - intros i Hi. by apply lookup_app_l.
Qed.

(** X2. [get_node] returns the first node of [network.nodes] that carries the
    name, and None exactly when no node carries it. *)
Theorem get_node_first_match network nm :
  match get_node network nm with
  | Some i =>
      ∃ node, nodes network !! i = Some node ∧ name node = nm
              ∧ ∀ j node', j < i → nodes network !! j = Some node' →
                           name node' ≠ nm
  | None => ∀ node, node ∈ nodes network → name node ≠ nm
  end.
Proof.
  destruct (get_node network nm) as [i|] eqn:Hi.
  - destruct (get_node_Some _ _ _ Hi) as (node & Hnode & Hname).
    exists node. split; [done|]. split; [done|].
    by apply find_node_first.
  - intros node Hnode Hname. apply (find_node_None _ _ Hi).
    apply list_elem_of_fmap. by exists node.
Qed.

Lemma add_arc_names network node_from node_to w :
  name <$> nodes (add_arc network node_from node_to w) = name <$> nodes network.
Proof.
  apply list_eq. intros i. rewrite !list_lookup_fmap, add_arc_lookup.
  destruct (nodes network !! i) as [node|]; [|done]. simpl.
  by destruct (decide (node_to = i)); destruct (decide (node_from = i)).
Qed.

Lemma find_node_names nm l k :
  name <$> l = name <$> k → find_node nm l = find_node nm k.
Proof.
  revert k. induction l as [|x l IH]; intros [|y k] H; try done.
  rewrite !fmap_cons in H. injection H as Hxy H. simpl.
  by rewrite Hxy, (IH k).
Qed.

(** X3. [add_arc(node_from, node_to, w)] appends the new arc to
    [network.arcs], to the [arcs_out] of [node_from] and to the [arcs_in] of
    [node_to] (to both lists of one node for an arc from a node to itself);
    it changes no other arc list, no name, no value, not the number of nodes,
    and so no result of [get_node]. *)
Theorem add_arc_effect network node_from node_to w :
  arcs (add_arc network node_from node_to w)
  = arcs network ++ [mkArc w node_from node_to]
  ∧ length (nodes (add_arc network node_from node_to w)) = length (nodes network)
  ∧ (∀ x, get_node (add_arc network node_from node_to w) x = get_node network x)
  ∧ ∀ i,
      match nodes network !! i with
      | Some node =>
          ∃ node',
            nodes (add_arc network node_from node_to w) !! i = Some node'
            ∧ name node' = name node
            ∧ value node' = value node
            ∧ arcs_out node'
              = arcs_out node
                ++ (if decide (node_from = i) then [mkArc w node_from node_to] else [])
            ∧ arcs_in node'
              = arcs_in node
                ++ (if decide (node_to = i) then [mkArc w node_from node_to] else [])
      | None => nodes (add_arc network node_from node_to w) !! i = None
      end.
Proof.
  split; [done|]. split; [|split].
  - unfold add_arc. simpl. by rewrite !length_alter.
  - intros x. apply find_node_names, add_arc_names.
  - intros i. rewrite add_arc_lookup.
    destruct (nodes network !! i) as [node|]; [|done]. simpl.
    eexists. split; [done|].
    destruct (decide (node_to = i)); destruct (decide (node_from = i)); simpl;
      by rewrite ?app_nil_r.
Qed.

Lemma filter_none (P : Arc → Prop) `{∀ a, Decision (P a)} (l : list Arc) :
  (∀ a, a ∈ l → ¬ P a) → filter P l = [].
Proof.
  induction l as [|a l IH]; intros Hl; [done|].
  rewrite filter_cons. destruct (decide (P a)) as [Ha|_].
  - exfalso. apply (Hl a); [left | done].
  - apply IH. intros b Hb. apply Hl. by right.
Qed.

Lemma arcs_indexed_empty : arcs_indexed empty_network.
Proof.
  split.
  - intros a Ha. by apply elem_of_nil in Ha.
  - intros i node Hi. done.
Qed.

Lemma arcs_indexed_add_node network nm v :
  arcs_indexed network → arcs_indexed (add_node network nm v).
Proof.
  intros [Hrange Hidx]. unfold add_node. split; simpl.
  - intros a Ha. rewrite length_app. simpl.
    destruct (Hrange a Ha). lia.
  - intros i node Hi. apply lookup_snoc_Some in Hi as [[_ Hi] | [-> <-]].
    + by apply Hidx.
    + simpl. split; symmetry; apply filter_none; intros a Ha Heq;
        destruct (Hrange a Ha); lia.
Qed.

Lemma arcs_indexed_add_arc network node_from node_to w :
  arcs_indexed network →
  node_from < length (nodes network) →
  node_to < length (nodes network) →
  arcs_indexed (add_arc network node_from node_to w).
Proof.
  intros [Hrange Hidx] Hf Ht. split.
  - intros a Ha.
    assert (length (nodes (add_arc network node_from node_to w))
            = length (nodes network)) as ->.
    { unfold add_arc. simpl. by rewrite !length_alter. }
    unfold add_arc in Ha. simpl in Ha. apply elem_of_app in Ha as [Ha|Ha].
    + by apply Hrange.
    + by apply list_elem_of_singleton in Ha as ->.
  - intros i node' Hi. rewrite add_arc_lookup in Hi.
    destruct (nodes network !! i) as [node|] eqn:Hnode; [|done].
    injection Hi as <-. destruct (Hidx i node Hnode) as [Hout Hin].
    unfold add_arc. simpl. rewrite !filter_app, !filter_cons, !filter_nil. simpl.
    destruct (decide (node_to = i)); destruct (decide (node_from = i)); simpl;
      rewrite ?Hout, ?Hin, ?app_nil_r; done.
Qed.

Lemma arcs_indexed_wf network :
  arcs_indexed network → NoDup (name <$> nodes network) → wf_network network.
Proof.
  intros [Hrange Hidx] Hnd. apply wf_network_intro; [| |done].
  - intros i node a Hi Ha. destruct (Hidx i node Hi) as [Hout _].
    rewrite Hout in Ha. apply list_elem_of_filter in Ha as [Hfrom Ha].
    split; [done|]. split; [by apply Hrange | done].
  - intros a Ha. destruct (Hrange a Ha) as [Hf _].
    apply lookup_lt_is_Some in Hf as [node Hnode].
    exists node. split; [done|]. destruct (Hidx _ node Hnode) as [-> _].
    by apply list_elem_of_filter.
Qed.

(** X4. In a network built from [Network()] by calls of [add_node] and of
    [add_arc] on its own nodes, every arc joins nodes of the network and each
    node's [arcs_out] and [arcs_in] hold exactly the arcs of [network.arcs]
    that leave and enter it, in order of creation; when the names given to
    [add_node] were all different the network is well-formed. *)
Theorem built_arcs_indexed network :
  built network →
  arcs_indexed network
  ∧ (NoDup (name <$> nodes network) → wf_network network).
Proof.
  intros Hb.
  assert (arcs_indexed network) as Hidx.
  { induction Hb as [| network nm v _ IH | network f t w _ IH Hf Ht].
    - apply arcs_indexed_empty.
    - by apply arcs_indexed_add_node.
    - by apply arcs_indexed_add_arc. }
  split; [done|]. by apply arcs_indexed_wf.
Qed.

Lemma built_abcd : built abcd.
Proof.
  unfold abcd, add_nodes. simpl.
  repeat (apply built_add_arc; [| simpl; lia | simpl; lia]).
  repeat apply built_add_node. apply built_empty.
Qed.

Lemma built_arcs_indexed_witness :
  built abcd
  ∧ arcs_indexed abcd
  ∧ (NoDup (name <$> nodes abcd) → wf_network abcd).
Proof.
  split; [exact built_abcd|]. apply (built_arcs_indexed abcd built_abcd).
Defined.

(** ** One call of spath_iteration, on any network *)

Lemma relax_arcs_changes m l network network' :
  relax_arcs m network l = Ok network' →
  skeleton network' = skeleton network
  ∧ ∀ i, dist_le (tentative network' i) (tentative network i)
         ∧ (state_of network' i = state_of network i
            ∨ ∃ z, state_of network' i = Some (Fin z, Some m)
                   ∧ dist_lt (Fin z) (tentative network i)).
Proof.
  revert network. induction l as [|a l IH]; intros network H; simpl in H.
  - injection H as <-. split; [done|]. intros i. split; [apply dist_le_refl | by left].
  - apply bind_Ok in H as (network1 & Ha & H).
    destruct (IH _ H) as [Hshape Hrest].
    apply relax_arc_Ok in Ha as (vs & vn & Hvs & Hvn & [[Hlt ->] | [_ ->]]); [|done].
    split; [by rewrite Hshape, skeleton_set_value|].
    intros i. destruct (Hrest i) as [Hle Hch].
    pose proof (state_of_lt _ _ _ Hvn) as Hrange.
    destruct (decide (to_node a = i)) as [<-|Hne].
    + rewrite (tentative_state _ _ _ (state_set_value_eq network _ _ Hrange)) in Hle, Hch.
      rewrite state_set_value_eq in Hch by done. simpl in Hle, Hch.
      rewrite (tentative_state _ _ _ Hvn).
      destruct (dist_lt_Fin _ _ Hlt) as [z Hz]. rewrite Hz in *.
      split; [eapply dist_le_trans; [exact Hle | by apply dist_lt_le]|].
      right. destruct Hch as [-> | (z' & -> & Hlt')]; [by exists z|].
      exists z'. split; [done|]. eapply dist_lt_le_trans; [exact Hlt'|].
      by apply dist_lt_le.
    + unfold tentative in *. rewrite state_set_value_ne in Hle, Hch by done. done.
Qed.

(** X5. A call of [spath_iteration] that returns changes neither the nodes'
    names nor any arc list: only [value] lists are written.  When it returns
    a name, that name was in the unvisited set, names a node, and is the one
    name removed, the others keeping their order; when it returns None, the
    network and the set are as they were. *)
Theorem spath_iteration_frame network unvisited solved network' unvisited' :
  spath_iteration network unvisited = Ok (solved, network', unvisited') →
  skeleton network' = skeleton network
  ∧ match solved with
    | Some m =>
        m ∈ unvisited
        ∧ is_Some (get_node network m)
        ∧ unvisited' = filter (λ x, x ≠ m) unvisited
    | None => network' = network ∧ unvisited' = unvisited
    end.
Proof.
  intros Hit. destruct solved as [m|].
  - apply spath_iteration_Some in Hit
      as (Hmin & -> & mi & node & Hmi & _ & _ & Hrelax).
    apply min_unvisited_Ok in Hmin as [Hin _].
    apply relax_arcs_changes in Hrelax as [Hshape _].
    split; [done|]. split; [done|]. split; [by exists mi | done].
  - apply spath_iteration_None in Hit as (-> & -> & ->). done.
Qed.

Lemma spath_iteration_frame_witness :
  spath_iteration (fst (started abcd "A")) ["A"; "B"; "C"; "D"]
  = Ok (Some "A",
        set_value (set_value (fst (started abcd "A")) 1 (Fin 1, Some "A"))
          2 (Fin 4, Some "A"),
        ["B"; "C"; "D"])
  ∧ skeleton (set_value (set_value (fst (started abcd "A")) 1 (Fin 1, Some "A"))
                2 (Fin 4, Some "A"))
    = skeleton (fst (started abcd "A"))
  ∧ "A" ∈ ["A"; "B"; "C"; "D"]
  ∧ is_Some (get_node (fst (started abcd "A")) "A")
  ∧ ["B"; "C"; "D"] = filter (λ x, x ≠ "A") ["A"; "B"; "C"; "D"].
Proof.
  split; [reflexivity|].
  apply (spath_iteration_frame (fst (started abcd "A")) ["A"; "B"; "C"; "D"]
           (Some "A") _ ["B"; "C"; "D"]).
  reflexivity.
Defined.

(** X6. [spath_iteration] returns None for the empty unvisited set and for no
    other: on a set that is not empty it returns a name or raises, so the
    [except ValueError] branch of the source is never taken. *)
Theorem spath_iteration_None_only_empty network unvisited :
  (unvisited = [] → spath_iteration network unvisited = Ok (None, network, []))
  ∧ (unvisited ≠ [] →
     (∀ network' unvisited',
        spath_iteration network unvisited ≠ Ok (None, network', unvisited'))
     ∧ min_unvisited network unvisited ≠ Raise ValueError).
Proof.
  split.
  - by intros ->.
  - intros Hne. split.
    + intros network' unvisited' Hit.
      by apply spath_iteration_None in Hit as (-> & _).
    + destruct unvisited as [|x rest]; [done|].
      apply min_unvisited_not_ValueError.
Qed.

Lemma spath_iteration_None_only_empty_witness :
  spath_iteration abcd [] = Ok (None, abcd, [])
  ∧ (∀ network' unvisited',
       spath_iteration (fst (started abcd "A")) ["D"]
       ≠ Ok (None, network', unvisited'))
  ∧ min_unvisited (fst (started abcd "A")) ["D"] ≠ Raise ValueError.
Proof.
  destruct (spath_iteration_None_only_empty abcd []) as [H1 _].
  destruct (spath_iteration_None_only_empty (fst (started abcd "A")) ["D"])
    as [_ H2].
  split; [by apply H1 | by apply H2].
Defined.

(** ** Which node is solved *)

Lemma min_scan_first best rest :
  ∃ k x,
    (best :: rest) !! k = Some x
    ∧ min_scan best rest = fst x
    ∧ (∀ y, y ∈ best :: rest → dist_le (snd x) (snd y))
    ∧ (∀ j y, j < k → (best :: rest) !! j = Some y → dist_lt (snd x) (snd y)).
Proof.
  revert best. induction rest as [|y rest IH]; intros best; simpl.
  - exists 0, best. split; [done|]. split; [done|]. split.
    + intros y Hy. apply list_elem_of_singleton in Hy as ->. apply dist_le_refl.
    + intros j y Hj. lia.
  - destruct (dist_ltb (snd y) (snd best)) eqn:Hlt.
    + destruct (IH y) as (k & x & Hk & Hmin & Hle & Hbefore).
      exists (S k), x. split; [done|]. split; [done|].
      assert (dist_lt (snd x) (snd best)) as Hxb.
      { specialize (Hle y (list_elem_of_here _ _)). clear -Hlt Hle.
        destruct (snd x), (snd y), (snd best); dist_cases. }
      split.
      * intros y' Hy'. apply elem_of_cons in Hy' as [->|Hy']; [|by apply Hle].
        by apply dist_lt_le.
      * intros j y' Hj Hy'. destruct j as [|j]; simpl in Hy'.
        -- by injection Hy' as <-.
        -- apply (Hbefore j); [lia | done].
    + destruct (IH best) as (k & x & Hk & Hmin & Hle & Hbefore).
      assert (dist_le (snd x) (snd y)) as Hxy.
      { eapply dist_le_trans; [apply Hle; left | done]. }
      destruct k as [|k]; simpl in Hk.
      * injection Hk as <-. exists 0, best. split; [done|]. split; [done|]. split.
        -- intros y' Hy'. apply elem_of_cons in Hy' as [->|Hy']; [apply dist_le_refl|].
           apply elem_of_cons in Hy' as [->|Hy']; [done|]. apply Hle. by right.
        -- intros j y' Hj. lia.
      * exists (S (S k)), x. split; [done|]. split; [done|].
        assert (dist_lt (snd x) (snd best)) as Hxb.
        { apply (Hbefore 0 best); [lia | done]. }
        split.
        -- intros y' Hy'. apply elem_of_cons in Hy' as [->|Hy']; [by apply dist_lt_le|].
           apply elem_of_cons in Hy' as [->|Hy']; [done|]. apply Hle. by right.
        -- intros j y' Hj Hy'. destruct j as [|[|j]]; simpl in Hy'.
           ++ by injection Hy' as <-.
           ++ injection Hy' as <-. clear -Hxb Hlt.
              destruct (snd x), (snd y), (snd best); dist_cases.
           ++ apply (Hbefore (S j)); [lia | done].
Qed.

Lemma mapM_distance_key network unvisited keyed :
  mapM (distance_key network) unvisited = Ok keyed →
  keyed = (λ nm, (nm, key_of network nm)) <$> unvisited.
Proof.
  intros H. apply mapM_Ok in H.
  induction H as [|nm kv unvisited keyed Hkv _ IH]; [done|].
  rewrite fmap_cons, <- IH. f_equal.
  apply distance_key_Ok in Hkv as (v & Hv & ->).
  unfold key_of. by rewrite Hv.
Qed.

(** X7. The name [spath_iteration] returns is the first name, in the
    iteration order of the unvisited set, whose node has the least tentative
    distance: no unvisited node is closer, and every name iterated before it
    is strictly farther. *)
Theorem spath_iteration_first_closest network unvisited m network' unvisited' :
  spath_iteration network unvisited = Ok (Some m, network', unvisited') →
  ∃ k,
    unvisited !! k = Some m
    ∧ (∀ nm, nm ∈ unvisited → dist_le (key_of network m) (key_of network nm))
    ∧ (∀ j nm, j < k → unvisited !! j = Some nm →
               dist_lt (key_of network m) (key_of network nm)).
Proof.
  intros Hit. apply spath_iteration_Some in Hit as (Hmin & _).
  unfold min_unvisited in Hmin. apply bind_Ok in Hmin as (keyed & Hk & Hmin).
  apply mapM_distance_key in Hk as ->.
  destruct unvisited as [|x rest]; [done|].
  set (g := λ nm : string, (nm, key_of network nm)) in *.
  destruct (min_scan_first (g x) (g <$> rest)) as (k & y & Hy & Hfst & Hle & Hbefore).
  assert (g x :: (g <$> rest) = g <$> (x :: rest)) as Heq by done.
  rewrite Heq in Hy, Hle, Hbefore.
  rewrite fmap_cons in Hmin. cbn [py_min] in Hmin. injection Hmin as Hmin.
  rewrite Hfst in Hmin. rewrite list_lookup_fmap in Hy.
  destruct ((x :: rest) !! k) as [m'|] eqn:Hm; [|done].
  injection Hy as <-. cbn [g fst] in Hmin. subst m'.
  exists k. split; [done|]. split.
  - intros nm Hnm. apply (Hle (g nm)).
    apply list_elem_of_fmap. by exists nm.
  - intros j nm Hj Hnm. apply (Hbefore j (g nm)); [done|].
    by rewrite list_lookup_fmap, Hnm.
Qed.

Lemma spath_iteration_first_closest_witness :
  spath_iteration (fst (started two_islands "A")) ["B"; "A"]
  = Ok (Some "A", fst (started two_islands "A"), ["B"])
  ∧ ∃ k,
      ["B"; "A"] !! k = Some "A"
      ∧ (∀ nm, nm ∈ ["B"; "A"] →
           dist_le (key_of (fst (started two_islands "A")) "A")
                   (key_of (fst (started two_islands "A")) nm))
      ∧ (∀ j nm, j < k → ["B"; "A"] !! j = Some nm →
           dist_lt (key_of (fst (started two_islands "A")) "A")
                   (key_of (fst (started two_islands "A")) nm)).
Proof.
  split; [reflexivity|].
  apply (spath_iteration_first_closest (fst (started two_islands "A")) ["B"; "A"]
           "A" (fst (started two_islands "A")) ["B"]).
  reflexivity.
Defined.

(** X8. Whatever the arc weights, a call of [spath_iteration] raises no
    tentative distance; a node whose [value] it changes ends with a finite
    distance strictly below the one it had and with the name of the solved
    node as predecessor. *)
Theorem spath_iteration_only_lowers network unvisited m network' unvisited' :
  spath_iteration network unvisited = Ok (Some m, network', unvisited') →
  ∀ i,
    dist_le (tentative network' i) (tentative network i)
    ∧ (state_of network' i = state_of network i
       ∨ ∃ z, state_of network' i = Some (Fin z, Some m)
              ∧ dist_lt (Fin z) (tentative network i)).
Proof.
  intros Hit i. apply spath_iteration_Some in Hit
    as (_ & _ & mi & node & _ & _ & _ & Hrelax).
  apply relax_arcs_changes in Hrelax as [_ Hall]. apply Hall.
Qed.

Lemma spath_iteration_only_lowers_witness :
  spath_iteration negative_loop_solved ["s"]
  = Ok (Some "s", set_value negative_loop_solved 0 (Fin (-2), Some "s"), [])
  ∧ ∀ i,
      dist_le (tentative (set_value negative_loop_solved 0 (Fin (-2), Some "s")) i)
              (tentative negative_loop_solved i)
      ∧ (state_of (set_value negative_loop_solved 0 (Fin (-2), Some "s")) i
         = state_of negative_loop_solved i
         ∨ ∃ z, state_of (set_value negative_loop_solved 0 (Fin (-2), Some "s")) i
                = Some (Fin z, Some "s")
                ∧ dist_lt (Fin z) (tentative negative_loop_solved i)).
Proof.
  split; [reflexivity|].
  apply (spath_iteration_only_lowers negative_loop_solved ["s"] "s" _ []).
  reflexivity.
Defined.

(** ** What spath_iteration raises *)

Lemma mapM_raises {A B} (f : A → result B) pre x rest e :
  (∀ y, y ∈ pre → ∃ b, f y = Ok b) →
  f x = Raise e →
  mapM f (pre ++ x :: rest) = Raise e.
Proof.
  intros Hpre Hx. induction pre as [|y pre IH]; simpl.
  - by rewrite Hx.
  - destruct (Hpre y) as [b Hb]; [left|]. rewrite Hb. simpl.
    rewrite IH; [done|]. intros z Hz. apply Hpre. by right.
Qed.

Lemma spath_iteration_raises_key network pre nm rest e :
  (∀ x, x ∈ pre → ∃ v, value_of network (get_node network x) = Ok v) →
  value_of network (get_node network nm) = Raise e →
  e ≠ ValueError →
  spath_iteration network (pre ++ nm :: rest) = Raise e.
Proof.
  intros Hpre Hnm He.
  assert (min_unvisited network (pre ++ nm :: rest) = Raise e) as Hmin.
  { unfold min_unvisited. rewrite (mapM_raises _ pre nm rest e); [done| |].
    - intros x Hx. destruct (Hpre x Hx) as [v Hv].
      unfold distance_key. rewrite Hv. simpl. eauto.
    - unfold distance_key. by rewrite Hnm. }
  unfold spath_iteration. rewrite Hmin.
  destruct (pre ++ nm :: rest) as [|? ?] eqn:Heq.
  - by destruct pre.
  - by destruct e.
Qed.

(** X9. When the names iterated before [nm] all name nodes that carry a
    search state, a call of [spath_iteration] raises AttributeError if [nm]
    names no node of the network, and TypeError if [nm] names a node whose
    [value] is still None, as [add_node] leaves it. *)
Theorem spath_iteration_raises network pre nm rest :
  (∀ x, x ∈ pre → ∃ v, value_of network (get_node network x) = Ok v) →
  (get_node network nm = None →
   spath_iteration network (pre ++ nm :: rest) = Raise AttributeError)
  ∧ (∀ i node,
       get_node network nm = Some i →
       nodes network !! i = Some node →
       value node = None →
       spath_iteration network (pre ++ nm :: rest) = Raise TypeError).
Proof.
  intros Hpre. split.
  - intros Hnm. apply spath_iteration_raises_key; [done | | done].
    by rewrite Hnm.
  - intros i node Hnm Hnode Hval.
    apply spath_iteration_raises_key; [done | | done].
    rewrite Hnm. unfold value_of, deref. rewrite Hnode. simpl. by rewrite Hval.
Qed.

Lemma spath_iteration_raises_witness :
  (∀ x, x ∈ ["A"] →
     ∃ v, value_of (fst (started two_islands "A"))
            (get_node (fst (started two_islands "A")) x) = Ok v)
  ∧ (get_node (fst (started two_islands "A")) "Z" = None →
     spath_iteration (fst (started two_islands "A")) (["A"] ++ "Z" :: ["B"])
     = Raise AttributeError)
  ∧ (∀ i node,
       get_node two_islands "B" = Some i →
       nodes two_islands !! i = Some node →
       value node = None →
       spath_iteration two_islands ([] ++ "B" :: ["A"]) = Raise TypeError).
Proof.
  assert (∀ x, x ∈ ["A"] →
            ∃ v, value_of (fst (started two_islands "A"))
                   (get_node (fst (started two_islands "A")) x) = Ok v) as Hpre.
  { intros x Hx. apply list_elem_of_singleton in Hx as ->. by eexists. }
  split; [exact Hpre|]. split.
  - apply (spath_iteration_raises (fst (started two_islands "A")) ["A"] "Z" ["B"] Hpre).
  - apply (spath_iteration_raises two_islands [] "B" ["A"]).
    intros x Hx. by apply elem_of_nil in Hx.
Defined.

(** ** Predecessors that never end *)

(** X13. When the destination node lies in a set of nodes each of which
    records as predecessor the name of a node of the set (a cycle of
    predecessors, for one), [spath_extract_path] never returns: the loop is
    still running when any budget is used up. *)
Theorem spath_extract_path_endless network (caught : nat → Prop) destination d :
  get_node network destination = Some d →
  caught d →
  (∀ i, caught i →
        ∃ v pn j, state_of network i = Some v ∧ snd v = Some pn
                  ∧ get_node network pn = Some j ∧ caught j) →
  ∀ fuel, spath_extract_path fuel network destination = OutOfFuel.
Proof.
  intros Hd HS Hclosed fuel.
  assert (∀ fuel i acc, caught i →
            follow_predecessors fuel network (Some i) acc = OutOfFuel) as Hfollow.
  { clear fuel. induction fuel as [|fuel IH]; intros i acc Hi;
      destruct (Hclosed i Hi) as (v & pn & j & Hv & Hpn & Hj & HSj);
      rewrite follow_predecessors_unfold, (proj2 (value_of_state _ _ _) Hv);
      unfold mbind, result_bind; rewrite Hpn; [done|].
    rewrite Hj. by apply IH. }
  unfold spath_extract_path. rewrite Hd. by rewrite Hfollow.
Qed.

Lemma spath_extract_path_endless_witness :
  get_node negative_loop_solved "s" = Some 0
  ∧ ∀ fuel, spath_extract_path fuel negative_loop_solved "s" = OutOfFuel.
Proof.
  split; [reflexivity|].
  apply (spath_extract_path_endless negative_loop_solved (λ i, i = 0) "s" 0);
    [reflexivity | reflexivity |].
  intros i ->. exists (Fin (-1), Some "s"), "s", 0. by repeat split.
Defined.

(** ** A search leaves nothing behind for the next *)

Lemma search_loop_skeleton fuel network unvisited solved d steps r network' unvisited' steps' :
  search_loop fuel network unvisited solved d steps
  = Ok (r, network', unvisited', steps') →
  skeleton network' = skeleton network.
Proof.
  revert network unvisited solved steps.
  induction fuel as [|fuel IH]; intros network unvisited solved steps H.
  - destruct solved as [nm|]; simpl in H; [|by injection H as _ <- _ _].
    destruct (String.eqb nm d); [by injection H as _ <- _ _ | done].
  - destruct solved as [nm|]; simpl in H; [|by injection H as _ <- _ _].
    destruct (String.eqb nm d); [by injection H as _ <- _ _|].
    apply bind_Ok in H as ([[solved1 network1] unvisited1] & Hit & H).
    apply IH in H. rewrite H.
    destruct solved1 as [m|].
    + apply spath_iteration_Some in Hit as (_ & _ & ? & ? & _ & _ & _ & Hrelax).
      by apply relax_arcs_changes in Hrelax as [? _].
    + by apply spath_iteration_None in Hit as (_ & -> & _).
Qed.

Lemma spath_initialise_skeleton set_order a b source :
  skeleton a = skeleton b →
  spath_initialise set_order a source = spath_initialise set_order b source.
Proof.
  intros Hab.
  assert (reset_search_state a = reset_search_state b) as Hreset.
  { unfold reset_search_state. f_equal.
    - apply (f_equal (λ n, with_value (Some (Inf, None)) <$> nodes n)) in Hab.
      simpl in Hab. rewrite <- !list_fmap_compose in Hab.
      etrans; [|etrans; [exact Hab|]]; by apply list_fmap_ext.
    - by apply (f_equal arcs) in Hab. }
  assert (name <$> nodes a = name <$> nodes b) as Hnames.
  { apply (f_equal (λ n, name <$> nodes n)) in Hab.
    simpl in Hab. rewrite <- !list_fmap_compose in Hab.
    etrans; [|etrans; [exact Hab|]]; by apply list_fmap_ext. }
  unfold spath_initialise. cbv zeta. by rewrite Hreset, Hnames.
Qed.

Lemma spath_search_skeleton set_order fuel network source d r network' unvisited' steps :
  spath_search (completed_globals set_order) fuel network source d
  = Ok (r, network', unvisited', steps) →
  skeleton network' = skeleton network.
Proof.
  rewrite spath_search_completed. intros H.
  apply bind_Ok in H as ([network0 unvisited0] & Hinit & H).
  apply bind_Ok in H as ([[solved1 network1] unvisited1] & Hit & H).
  apply search_loop_skeleton in H. rewrite H.
  apply spath_initialise_Ok in Hinit as (_ & _ & _ & <- & _).
  destruct solved1 as [m|].
  - apply spath_iteration_Some in Hit as (_ & _ & ? & ? & _ & _ & _ & Hrelax).
    by apply relax_arcs_changes in Hrelax as [? _].
  - by apply spath_iteration_None in Hit as (_ & -> & _).
Qed.

(** X12. On the network as a search leaves it, every later call of
    [spath_algorithm] gives what it gives on the network as it was before:
    the tentative distances and predecessors written by one search do not
    reach the next. *)
Theorem spath_algorithm_no_leak set_order fuel network source destination
    solved network' unvisited' steps :
  spath_search (completed_globals set_order) fuel network source destination
  = Ok (solved, network', unvisited', steps) →
  ∀ fuel2 source2 destination2,
    spath_algorithm (completed_globals set_order) fuel2 network' source2 destination2
    = spath_algorithm (completed_globals set_order) fuel2 network source2 destination2.
Proof.
  intros Hsearch fuel2 source2 destination2.
  apply spath_search_skeleton in Hsearch.
  unfold spath_algorithm. rewrite !spath_search_completed.
  by rewrite (spath_initialise_skeleton set_order network' network).
Qed.

Lemma spath_algorithm_no_leak_witness :
  (∃ network' unvisited',
     spath_search (completed_globals insertion_order) 4 abcd "A" "D"
     = Ok (Some "D", network', unvisited', 4)
     ∧ ∀ fuel2 source2 destination2,
         spath_algorithm (completed_globals insertion_order) fuel2
           network' source2 destination2
         = spath_algorithm (completed_globals insertion_order) fuel2
             abcd source2 destination2).
Proof.
  eexists _, _. split; [reflexivity|].
  eapply (spath_algorithm_no_leak insertion_order 4 abcd "A" "D").
  reflexivity.
Defined.

(** ** The state a search reaches *)




Section Routes.
Variable set_order : list string → list string.
Hypothesis Hperm : set_order_ok set_order.
Variable network0 : Network.
Hypothesis Hwf : wf_network network0.
Hypothesis Hnn : nonneg_weights network0.


End Routes.






(** ** Reading a network from a file *)

Lemma split_nonempty sep s : split sep s ≠ [].
Proof.
  destruct s as [|c s]; simpl; [done|].
  destruct (Ascii.eqb c sep); [done|]. by destruct (split sep s).
Qed.

Lemma get_node_add_node_eq network nm v x :
  get_node (add_node network nm v) x
  = match get_node network x with
    | Some i => Some i
    | None => if decide (x = nm) then Some (length (nodes network)) else None
    end.
Proof.
  unfold get_node, add_node. simpl. rewrite find_node_app.
  destruct (find_node x (nodes network)); [done|]. simpl.
  destruct (String.eqb_spec nm x) as [->|Hne].
  - rewrite decide_True by done. simpl. f_equal. lia.
  - by rewrite decide_False by congruence.
Qed.

Lemma get_node_add_arc network node_from node_to w x :
  get_node (add_arc network node_from node_to w) x = get_node network x.
Proof. apply find_node_names, add_arc_names. Qed.

Lemma get_node_lt network nm i :
  get_node network nm = Some i → i < length (nodes network).
Proof.
  intros H. destruct (get_node_Some _ _ _ H) as (node & Hnode & _).
  by eapply lookup_lt_Some.
Qed.

Lemma extends_refl network : extends network network.
Proof. split; [done|]. exists []. by rewrite app_nil_r. Qed.

Lemma extends_trans n1 n2 n3 : extends n1 n2 → extends n2 n3 → extends n1 n3.
Proof.
  intros [H1 [l1 E1]] [H2 [l2 E2]]. split; [auto|].
  exists (l1 ++ l2). by rewrite E2, E1, app_assoc.
Qed.

Lemma extends_ensure_node network nm : extends network (ensure_node network nm).
Proof.
  unfold ensure_node. destruct (get_node network nm) eqn:Hnm;
    [apply extends_refl|].
  split.
  - intros x i Hx. by rewrite get_node_add_node_eq, Hx.
  - exists []. unfold add_node. simpl. by rewrite app_nil_r.
Qed.

Lemma extends_add_arc network node_from node_to w :
  extends network (add_arc network node_from node_to w).
Proof.
  split.
  - intros x i Hx. by rewrite get_node_add_arc.
  - by exists [mkArc w node_from node_to].
Qed.

Lemma ensure_node_names network nm x :
  is_Some (get_node (ensure_node network nm) x)
  ↔ is_Some (get_node network x) ∨ x = nm.
Proof.
  unfold ensure_node. destruct (get_node network nm) as [i|] eqn:Hnm.
  - split; [by left|]. intros [H| ->]; [done | by rewrite Hnm].
  - rewrite get_node_add_node_eq. destruct (get_node network x) eqn:Hx.
    + split; [by left | done].
    + destruct (decide (x = nm)) as [->|Hne].
      * split; [by right | done].
      * split; [by intros [? ?] | by intros [[? ?]|?]].
Qed.

Lemma wf_ensure_node network nm :
  wf_network network → wf_network (ensure_node network nm).
Proof.
  intros Hwf. unfold ensure_node.
  destruct (get_node network nm) eqn:Hnm; [done|]. by apply wf_add_node.
Qed.

Lemma built_ensure_node network nm :
  built network → built (ensure_node network nm).
Proof.
  intros Hb. unfold ensure_node.
  destruct (get_node network nm); [done|]. by apply built_add_node.
Qed.

Section Reading.
Variable strip : string → string.
Variable float : string → option Z.

Lemma request_arc_extends network network' req a :
  extends network network' →
  request_arc float network req a → request_arc float network' req a.
Proof.
  intros [Hext _] (d & wt & more & Hsplit & Hw & Hfrom & Hto).
  exists d, wt, more. auto.
Qed.

Lemma request_arc_ok network req a :
  request_arc float network req a → request_ok float req.
Proof.
  intros (d & wt & more & Hsplit & Hw & _). by exists d, wt, more, (weight a).
Qed.

Lemma request_fails_not_ok e req :
  request_fails float e req → ¬ request_ok float req.
Proof.
  intros Hf (d & wt & more & w & Hsplit & Hw). destruct e as [|[]]; try done.
  - simpl in Hf. rewrite Hsplit in Hf. simpl in Hf. lia.
  - destruct Hf as (d' & wt' & more' & Hsplit' & Hw').
    rewrite Hsplit in Hsplit'. congruence.
Qed.

(** Reading on after a part that was read to its end *)
Lemma reads_app network network1 s1 q1 s2 q2 r :
  reads float network s1 q1 (Read network1) →
  reads float network1 s2 q2 r →
  reads float network (s1 ++ s2) (q1 ++ q2) r.
Proof.
  intros (Hext1 & Hwf1 & Hb1 & Hnames1 & new1 & Harcs1 & Hall1 & Hlen1 & Hsrc1)
         (Hext2 & Hwf2 & Hb2 & Hnames2 & new2 & Harcs2 & Hall2 & Hend).
  simpl in *.
  split; [by eapply extends_trans|]. split; [auto|]. split; [auto|]. split.
  { intros x Hx. rewrite fmap_app, !elem_of_app.
    destruct (Hnames2 x Hx) as [H|[H|H]]; [|tauto|tauto].
    destruct (Hnames1 x H) as [?|[?|?]]; tauto. }
  exists (new1 ++ new2). split; [by rewrite Harcs2, Harcs1, app_assoc|].
  rewrite length_app. split.
  { rewrite (take_app_add' q1 q2) by done. apply Forall2_app; [|done].
    rewrite Hlen1, take_ge in Hall1 by done.
    eapply Forall2_impl; [exact Hall1|].
    intros req a. by apply request_arc_extends. }
  destruct r as [network2|e network2].
  - destruct Hend as [Hlen2 Hsrc2]. split; [rewrite length_app; lia|].
    intros x Hx. apply elem_of_app in Hx as [Hx|Hx]; [|auto].
    destruct (Hsrc1 x Hx) as [i Hi]. exists i. by apply Hext2.
  - destruct Hend as (req & Hreq & Hfails). exists req. split; [|done].
    rewrite lookup_app_r by lia. rewrite <- Hreq. f_equal. lia.
Qed.

(** What is not read after an exception changes nothing *)
Lemma reads_stopped network s1 q1 s2 q2 e network' :
  reads float network s1 q1 (Stopped e network') →
  reads float network (s1 ++ s2) (q1 ++ q2) (Stopped e network').
Proof.
  intros (Hext & Hwf & Hb & Hnames & new & Harcs & Hall & req & Hreq & Hfails).
  simpl in *. assert (length new < length q1) by by eapply lookup_lt_Some.
  split; [done|]. split; [done|]. split; [done|]. split.
  { intros x Hx. rewrite fmap_app, !elem_of_app.
    destruct (Hnames x Hx) as [?|[?|?]]; tauto. }
  exists new. split; [done|]. split.
  - rewrite take_app_le by lia. done.
  - exists req. split; [|done]. by rewrite lookup_app_l.
Qed.

Lemma reads_nil network : reads float network [] [] (Read network).
Proof.
  split; [apply extends_refl|]. split; [done|]. split; [done|].
  split; [by left|]. exists []. simpl. rewrite app_nil_r.
  split; [done|]. split; [constructor|]. split; [done|].
  intros x Hx. by apply elem_of_nil in Hx.
Qed.

(** One item with a destination and a weight *)
Lemma reads_item network first source_node item destination_name arc_weight more :
  get_node network first = Some source_node →
  split ";" item = destination_name :: arc_weight :: more →
  match float arc_weight with
  | None =>
      reads float network [] [(first, item)]
        (Stopped (Other ValueError) (ensure_node network destination_name))
  | Some w =>
      ∃ destination_node,
        get_node (ensure_node network destination_name) destination_name
        = Some destination_node
        ∧ reads float network [] [(first, item)]
            (Read (add_arc (ensure_node network destination_name)
                     source_node destination_node w))
  end.
Proof.
  intros Hsrc Hsplit.
  pose proof (extends_ensure_node network destination_name) as Hext.
  assert (∀ x, is_Some (get_node (ensure_node network destination_name) x) →
            is_Some (get_node network x) ∨ x ∈ []
            ∨ x ∈ request_destination <$> [(first, item)]) as Hnames.
  { intros x Hx. apply ensure_node_names in Hx as [Hx| ->]; [by left|].
    right. right. rewrite list_fmap_singleton. apply list_elem_of_singleton.
    unfold request_destination. simpl. by rewrite Hsplit. }
  destruct (float arc_weight) as [w|] eqn:Hw.
  - destruct (proj2 (ensure_node_names network destination_name
                       destination_name) (or_intror eq_refl)) as [dn Hdn].
    exists dn. split; [done|].
    pose proof (extends_add_arc (ensure_node network destination_name)
                  source_node dn w) as Hext'.
    split; [by eapply extends_trans|]. simpl. split.
    { intros Hwf. apply wf_add_arc; [by apply wf_ensure_node| |].
      - eapply get_node_lt. by apply Hext.
      - by eapply get_node_lt. }
    split.
    { intros Hb. apply built_add_arc; [by apply built_ensure_node| |].
      - eapply get_node_lt. by apply Hext.
      - by eapply get_node_lt. }
    split.
    { intros x Hx. rewrite get_node_add_arc in Hx. by apply Hnames. }
    exists [mkArc w source_node dn]. split.
    { destruct Hext as [_ [l Hl]]. unfold add_arc. simpl.
      unfold ensure_node in *. destruct (get_node network destination_name);
        [done|]. by unfold add_node. }
    split; [|split; [done | by intros x Hx; apply elem_of_nil in Hx]].
    simpl. constructor; [|constructor].
    exists destination_name, arc_weight, more. simpl.
    rewrite !get_node_add_arc. split; [done|]. split; [done|].
    split; [by apply Hext | done].
  - split; [done|]. simpl. split; [apply wf_ensure_node|].
    split; [apply built_ensure_node|]. split; [done|].
    exists []. split.
    { rewrite app_nil_r. unfold ensure_node.
      by destruct (get_node network destination_name). }
    split; [constructor|]. exists (first, item). split; [done|].
    by exists destination_name, arc_weight, more.
Qed.

Lemma read_items_reads items : ∀ network source_node first,
  get_node network first = Some source_node →
  reads float network []
    ((λ item, (first, item)) <$> filter (λ item, item ≠ first) items)
    (read_items float network source_node items).
Proof.
  induction items as [|item rest IH]; intros network source_node first Hsrc.
  { apply reads_nil. }
  destruct (get_node_Some _ _ _ Hsrc) as (node & Hnode & Hname).
  cbn [read_items]. rewrite Hnode, Hname, filter_cons.
  destruct (String.eqb_spec item first) as [->|Hne].
  { rewrite decide_False by (intros H; by apply H). by apply IH. }
  rewrite decide_True by done. rewrite fmap_cons.
  change (?x :: ?l) with ([x] ++ l) at 1.
  change (@nil string) with (@nil string ++ @nil string).
  destruct (split ";" item) as [|destination_name [|arc_weight more]] eqn:Hsplit.
  - by destruct (split_nonempty ";" item).
  - apply reads_stopped. split; [apply extends_refl|]. split; [done|].
    split; [done|]. split; [by left|]. exists []. simpl. rewrite app_nil_r.
    split; [done|]. split; [constructor|]. exists (first, item).
    split; [done|]. simpl. rewrite Hsplit. simpl. lia.
  - pose proof (reads_item network first source_node item destination_name
                  arc_weight more Hsrc Hsplit) as Hitem.
    cbv zeta. destruct (float arc_weight) as [w|].
    + destruct Hitem as (dn & Hdn & Hreads). rewrite Hdn.
      eapply reads_app; [exact Hreads|]. apply IH.
      rewrite get_node_add_arc. by apply extends_ensure_node.
    + by apply reads_stopped.
Qed.

Lemma read_line_reads network line :
  reads float network
    (match split "," (strip line) with [] => [] | first :: _ => [first] end)
    (line_requests strip line)
    (read_line strip float network line).
Proof.
  unfold read_line, line_requests.
  destruct (split "," (strip line)) as [|first items] eqn:Hitems.
  { by destruct (split_nonempty "," (strip line)). }
  cbv zeta.
  destruct (proj2 (ensure_node_names network first first) (or_intror eq_refl))
    as [source_node Hsrc].
  rewrite Hsrc.
  change [first] with ([first] ++ []).
  change (?f <$> ?l) with ([] ++ (f <$> l)).
  eapply reads_app; [|by apply read_items_reads].
  split; [apply extends_ensure_node|]. simpl.
  split; [apply wf_ensure_node|]. split; [apply built_ensure_node|]. split.
  { intros x Hx. apply ensure_node_names in Hx as [Hx| ->]; [by left|].
    right. left. by apply list_elem_of_singleton. }
  exists []. split.
  { rewrite app_nil_r. unfold ensure_node. by destruct (get_node network first). }
  split; [constructor|]. split; [done|].
  intros x Hx. apply list_elem_of_singleton in Hx as ->. by rewrite Hsrc.
Qed.

Lemma read_network_reads lines : ∀ network,
  reads float network (file_sources strip lines) (file_requests strip lines)
    (read_network strip float network lines).
Proof.
  induction lines as [|line rest IH]; intros network; [apply reads_nil|].
  cbn [read_network file_sources file_requests].
  destruct (String.eqb line ""); [apply reads_nil|].
  pose proof (read_line_reads network line) as Hline.
  assert (file_sources_cons :
    match split "," (strip line) with
    | [] => file_sources strip rest
    | first :: _ => first :: file_sources strip rest
    end
    = match split "," (strip line) with [] => [] | first :: _ => [first] end
      ++ file_sources strip rest).
  { by destruct (split "," (strip line)). }
  rewrite file_sources_cons.
  destruct (read_line strip float network line) as [network'|e network'].
  - eapply reads_app; [exact Hline | apply IH].
  - by apply reads_stopped.
Qed.
End Reading.

(** X14. However [read_network] ends, by reaching the end of the file or by
    an exception, the network has only grown: every name that [get_node]
    found before is found at the same node, [network.arcs] has kept its
    arcs and their order, and every name found afterwards was found before
    or is named by the file, as the first item of a line or as the
    destination of another item. *)
Theorem read_network_grows strip float network lines :
  extends network (network_of (read_network strip float network lines))
  ∧ ∀ x,
      is_Some (get_node (network_of (read_network strip float network lines)) x) →
      is_Some (get_node network x)
      ∨ x ∈ file_sources strip lines
      ∨ x ∈ request_destination <$> file_requests strip lines.
Proof.
  destruct (read_network_reads strip float lines network)
    as (Hext & _ & _ & Hnames & _).
  by split.
Qed.

(** X15. [read_network] keeps a network well formed, also when an exception
    stops it half way: no two nodes get one name, since a node is added only
    for a name that [get_node] does not find, and each arc is in the lists
    of the nodes it joins. *)
Theorem read_network_wf strip float network lines :
  wf_network network →
  wf_network (network_of (read_network strip float network lines)).
Proof.
  destruct (read_network_reads strip float lines network)
    as (_ & Hwf & _). exact Hwf.
Qed.

Lemma read_network_wf_witness :
  wf_network empty_network
  ∧ wf_network
      (network_of
         (read_network example_strip example_float empty_network
            ["A,B;1,C"; "C,D;2"])).
Proof.
  split; [reflexivity|].
  apply (read_network_wf example_strip example_float empty_network
           ["A,B;1,C"; "C,D;2"]).
  reflexivity.
Defined.

(** X16. What [read_network] makes of a network built by [add_node] and
    [add_arc] is again such a network: it changes the network through these
    two methods only, and gives [add_arc] nodes of the network only. *)
Theorem read_network_built strip float network lines :
  built network →
  built (network_of (read_network strip float network lines)).
Proof.
  destruct (read_network_reads strip float lines network)
    as (_ & _ & Hb & _). exact Hb.
Qed.

Lemma read_network_built_witness :
  built empty_network
  ∧ built
      (network_of
         (read_network example_strip example_float empty_network abcd_lines)).
Proof.
  split; [exact built_empty|].
  apply (read_network_built example_strip example_float empty_network
           abcd_lines).
  exact built_empty.
Defined.

(** X17. The arcs [read_network] adds are, in the order of the file, one arc
    for each item that differs from the first item of its line: from the
    node with the name of that first item to the node with the name before
    the [;], with the weight that [float] gives for the text after it.  When
    the file is read to its end every such item has its arc; when an
    exception stops the reading the items before the one that raised have
    theirs, and that item has no [;] (IndexError) or a weight text that
    [float] refuses (ValueError). *)
Theorem read_network_arcs strip float network lines :
  ∃ new,
    arcs (network_of (read_network strip float network lines))
    = arcs network ++ new
    ∧ Forall2
        (request_arc float (network_of (read_network strip float network lines)))
        (take (length new) (file_requests strip lines)) new
    ∧ match read_network strip float network lines with
      | Read _ => length new = length (file_requests strip lines)
      | Stopped e _ =>
          ∃ req, file_requests strip lines !! length new = Some req
                 ∧ request_fails float e req
      end.
Proof.
  destruct (read_network_reads strip float lines network)
    as (_ & _ & _ & _ & new & Harcs & Hall & Hend).
  exists new. split; [done|]. split; [done|].
  destruct (read_network strip float network lines); [|done]. by destruct Hend.
Qed.

(** X18. [read_network] reads a file to its end exactly when every item
    that differs from the first item of its line has a [;] followed by a
    text that [float] accepts; the only exceptions it raises are the
    IndexError and the ValueError of the other files: the nodes it looks up
    after adding them are always found. *)
Theorem read_network_succeeds_iff strip float network lines :
  ((∃ network', read_network strip float network lines = Read network')
   ↔ Forall (request_ok float) (file_requests strip lines))
  ∧ ∀ e network',
      read_network strip float network lines = Stopped e network' →
      e = IndexError ∨ e = Other ValueError.
Proof.
  destruct (read_network_reads strip float lines network)
    as (_ & _ & _ & _ & new & _ & Hall & Hend).
  destruct (read_network strip float network lines) as [network'|e network'].
  - destruct Hend as [Hlen _]. split; [|done]. split; [intros _ | by eauto].
    rewrite Hlen, take_ge in Hall by done.
    apply Forall_lookup. intros i req Hreq.
    destruct (Forall2_lookup_l _ _ _ _ _ Hall Hreq) as (a & _ & Ha).
    by eapply request_arc_ok.
  - destruct Hend as (req & Hreq & Hfails). split.
    + split; [by intros [? ?]|]. intros Hok. exfalso.
      apply (request_fails_not_ok float e req Hfails).
      by eapply Forall_lookup_1.
    + intros e' n' [= <- <-]. destruct e as [|[]]; try done; auto.
Qed.

(** X19. After [read_network] has read a file to its end, the names
    [get_node] finds are those it found before, the first items of the lines
    and the destinations of the other items: each name of the file has its
    node, and no other node was added. *)
Theorem read_network_nodes strip float network lines network' :
  read_network strip float network lines = Read network' →
  ∀ x, is_Some (get_node network' x)
       ↔ is_Some (get_node network x)
         ∨ x ∈ file_sources strip lines
         ∨ x ∈ request_destination <$> file_requests strip lines.
Proof.
  intros Hread.
  destruct (read_network_reads strip float lines network)
    as ([Hext _] & _ & _ & Hnames & new & _ & Hall & Hend).
  rewrite Hread in *. simpl in *. destruct Hend as [Hlen Hsrc].
  intros x. split; [apply Hnames|].
  intros [[i Hi]|[Hx|Hx]]; [by exists i; apply Hext | by apply Hsrc |].
  apply list_elem_of_fmap in Hx as (req & -> & Hreq).
  apply list_elem_of_lookup in Hreq as [k Hk].
  rewrite Hlen, take_ge in Hall by done.
  destruct (Forall2_lookup_l _ _ _ _ _ Hall Hk)
    as (a & _ & d & wt & more & Hsplit & _ & _ & Hto).
  unfold request_destination. rewrite Hsplit. by rewrite Hto.
Qed.

Lemma read_network_nodes_witness :
  read_network example_strip example_float empty_network abcd_lines = Read abcd
  ∧ ∀ x, is_Some (get_node abcd x)
         ↔ is_Some (get_node empty_network x)
           ∨ x ∈ file_sources example_strip abcd_lines
           ∨ x ∈ request_destination <$> file_requests example_strip abcd_lines.
Proof.
  split; [reflexivity|].
  apply (read_network_nodes example_strip example_float empty_network
           abcd_lines abcd).
  reflexivity.
Defined.

(** X20. A line that is not empty but that [strip] leaves empty, a line of
    white space, does not end the reading and is not skipped: its one item
    is the empty string, and the line adds a node with the empty name
    unless there is one. *)
Theorem read_line_blank strip float network line :
  strip line = "" →
  read_line strip float network line = Read (ensure_node network "")
  ∧ is_Some (get_node (ensure_node network "") "").
Proof.
  intros Hblank. unfold read_line. rewrite Hblank. simpl.
  destruct (proj2 (ensure_node_names network "" "") (or_intror eq_refl))
    as [source_node Hsrc].
  rewrite Hsrc. split; [|done].
  destruct (get_node_Some _ _ _ Hsrc) as (node & Hnode & Hname).
  by rewrite Hnode, Hname.
Qed.

Lemma read_line_blank_witness :
  example_strip (String "010" "") = ""
  ∧ read_line example_strip example_float abcd (String "010" "")
    = Read (ensure_node abcd "")
  ∧ is_Some (get_node (ensure_node abcd "") "").
Proof.
  split; [reflexivity|].
  apply (read_line_blank example_strip example_float abcd (String "010" "")).
  reflexivity.
Defined.
